(** * EmailService: retry, failover, idempotency and rate limiting

    A shallow embedding of [src/EmailService.js] and the properties of its
    dispatch logic.

    Conventions of the embedding.
    - JavaScript numbers that the program uses as counters, limits, delays
      and timestamps are modelled as [Z], so [maxRetries], [limit] and
      [intervalMs] are integers; the values compared with [Math.random()]
      are modelled as [Q].
    - The outside world ([Date.now], [Math.random], [setTimeout] and the
      calls that reach a provider) is an explicit [World] value threaded
      through every operation.  The clock and the random source are
      arbitrary streams, so nothing is assumed about them unless a theorem
      says so.
    - An operation that may throw returns a [Completion].
    - [undefined] is [None]: a provider slot that was not supplied, or the
      result of [Map.get] on an absent key.  A provider that is supplied is
      an [EmailProvider].
    - The console output of [send] is not part of the model; what the
      driver at the end of the source file logs itself is.
    - [send] is an async function.  [send] below is a call that runs from
      its start to its end with no other call of [send] in between, as in
      the driver at the end of the source file, which awaits every call.
      [send_start] and [send_resume] are the same code cut at its two
      [await]s, for calls that overlap. *)

From Stdlib Require Import ZArith QArith.
From stdpp Require Import gmap strings list pretty.
From Equations Require Import Equations.

Local Open Scope Z_scope.

(** ** The outside world *)

Record EmailData := mkEmailData { to : string; body : string }.

Record EmailProvider := mkEmailProvider {
  name : string;
  failureRate : Q }.

Inductive Event :=
| EvDateNow (t : Z)
| EvSendEmail (provider : EmailProvider) (email : EmailData)
| EvSetTimeout (delay : Z).

Record World := mkWorld {
  clock : nat → Z;
  clock_pos : nat;
  random : nat → Q;
  random_pos : nat;
  trace : list Event }.

Definition emit (e : Event) (w : World) : World :=
  mkWorld (clock w) (clock_pos w) (random w) (random_pos w) (trace w ++ [e]).

(** [Date.now()] *)
Definition Date_now (w : World) : Z * World :=
  let t := clock w (clock_pos w) in
  (t, mkWorld (clock w) (S (clock_pos w)) (random w) (random_pos w)
        (trace w ++ [EvDateNow t])).

(** [Math.random()] *)
Definition Math_random (w : World) : Q * World :=
  (random w (random_pos w),
   mkWorld (clock w) (clock_pos w) (random w) (S (random_pos w)) (trace w)).

(** [await new Promise(res => setTimeout(res, delay))] *)
Definition sleep (delay : Z) (w : World) : World := emit (EvSetTimeout delay) w.

Inductive JsError :=
| Error (message : string)
| TypeError (message : string).

Inductive Completion (A : Type) :=
| Returns (v : A)
| Throws (e : JsError).
Arguments Returns {A} v.
Arguments Throws {A} e.

(** ** EmailProvider *)

Record Receipt := mkReceipt { success : bool; provider : string }.

(** [new EmailProvider(name, failureRate = 0.3)] *)
Definition new_EmailProvider (name : string) (failureRate : option Q) : EmailProvider :=
  mkEmailProvider name (default (3 # 10)%Q failureRate).

(** [Math.random() < this.failureRate] *)
Definition Qltb (x y : Q) : bool := negb (Qle_bool y x).

Definition sendEmail (this : EmailProvider) (email : EmailData) (w : World)
  : Completion Receipt * World :=
  let '(r, w1) := Math_random (emit (EvSendEmail this email) w) in
  if Qltb r (failureRate this)
  then (Throws (Error (name this +:+ " failed to send email")), w1)
  else (Returns (mkReceipt true (name this)), w1).

(** ** RateLimiter *)

Record RateLimiter := mkRateLimiter {
  limit : Z;
  intervalMs : Z;
  timestamps : list Z }.

Definition new_RateLimiter (limit intervalMs : Z) : RateLimiter :=
  mkRateLimiter limit intervalMs [].

(** The body of [isAllowed] once [now] has been read. *)
Definition isAllowed_at (now : Z) (this : RateLimiter) : bool * RateLimiter :=
  let kept := filter (λ ts, now - ts < intervalMs this) (timestamps this) in
  if bool_decide (Z.of_nat (length kept) < limit this)
  then (true, mkRateLimiter (limit this) (intervalMs this) (kept ++ [now]))
  else (false, mkRateLimiter (limit this) (intervalMs this) kept).

Definition isAllowed (this : RateLimiter) (w : World) : bool * RateLimiter * World :=
  let '(now, w1) := Date_now w in
  (isAllowed_at now this, w1).

(** ** EmailService *)

Inductive Status :=
| Sent (provider : string) (attempts : Z)
| RateLimited (attempts : Z)
| Failed (attempts : Z)
| Unknown.

Record EmailService := mkEmailService {
  providers : list (option EmailProvider);
  maxRetries : Z;
  sentEmails : gset string;
  statusMap : gmap string Status;
  rateLimiter : RateLimiter }.

(** [new EmailService(provider1, provider2, maxRetries = 3)].  The body has
    no statement that can throw. *)
Definition new_EmailService (provider1 provider2 : option EmailProvider)
    (maxRetries : option Z) : Completion EmailService :=
  Returns (mkEmailService [provider1; provider2] (default 3 maxRetries)
             ∅ ∅ (new_RateLimiter 5 10000)).

Definition set_status (this : EmailService) (emailId : string) (status : Status)
  : EmailService :=
  mkEmailService (providers this) (maxRetries this) (sentEmails this)
    (<[emailId := status]> (statusMap this)) (rateLimiter this).

Definition add_sent (this : EmailService) (emailId : string) : EmailService :=
  mkEmailService (providers this) (maxRetries this) ({[emailId]} ∪ sentEmails this)
    (statusMap this) (rateLimiter this).

Definition set_rateLimiter (this : EmailService) (rl : RateLimiter) : EmailService :=
  mkEmailService (providers this) (maxRetries this) (sentEmails this)
    (statusMap this) rl.

(** The [while (attempts < this.maxRetries)] loop of [send], lines 62-81.
    The result is [Some status] when the loop body returns from [send] and
    [None] when the loop condition becomes false. *)
Equations? retry_loop (this : EmailService) (prov : EmailProvider)
    (emailId : string) (emailData : EmailData) (attempts delay : Z) (w : World)
  : option Status * EmailService * World
  by wf (Z.to_nat (maxRetries this - attempts)) lt :=
retry_loop this prov emailId emailData attempts delay w
  with decide (attempts < maxRetries this) := {
  | right _ := (None, this, w)
  | left _ with sendEmail prov emailData w := {
    | (Returns result, w1) :=
        let status := Sent (provider result) (attempts + 1) in
        (Some status, set_status (add_sent this emailId) emailId status, w1)
    | (Throws err, w1) :=
        retry_loop this prov emailId emailData (attempts + 1) (delay * 2)
          (sleep delay w1) } }.
Proof. lia. Qed.

(** The [for] loop over [this.providers], lines 55-85, followed by the
    failure path, lines 87-93.  [rest] is the part of the provider array
    from index [i] on. *)
Fixpoint for_providers (this : EmailService) (rest : list (option EmailProvider))
    (emailId : string) (emailData : EmailData) (w : World)
  : Completion (option Status) * EmailService * World :=
  match rest with
  | [] =>
      let failureStatus :=
        Failed (maxRetries this * Z.of_nat (length (providers this))) in
      (Returns (Some failureStatus), set_status this emailId failureStatus, w)
  | None :: _ =>
      (Throws (TypeError "Cannot read properties of undefined (reading 'name')"),
       this, w)
  | Some prov :: rest' =>
      match retry_loop this prov emailId emailData 0 100 w with
      | (Some status, this1, w1) => (Returns (Some status), this1, w1)
      | (None, this1, w1) => for_providers this1 rest' emailId emailData w1
      end
  end.

(** [async send(emailId, emailData)] *)
Definition send (this : EmailService) (emailId : string) (emailData : EmailData)
    (w : World) : Completion (option Status) * EmailService * World :=
  if decide (emailId ∈ sentEmails this)
  then (Returns (statusMap this !! emailId), this, w)
  else
    let '(allowed, rl, w1) := isAllowed (rateLimiter this) w in
    let this1 := set_rateLimiter this rl in
    if negb allowed
    then
      let status := RateLimited 0 in
      (Returns (Some status), set_status this1 emailId status, w1)
    else for_providers this1 (providers this1) emailId emailData w1.

(** [getStatus(emailId)] *)
Definition getStatus (this : EmailService) (emailId : string) : Status :=
  default Unknown (statusMap this !! emailId).

(** * Vocabulary of the statements *)

(** [advance w k evs]: the world after [k] more random draws and the events
    [evs]; the clock is not read. *)
Definition advance (w : World) (k : nat) (evs : list Event) : World :=
  mkWorld (clock w) (clock_pos w) (random w) (random_pos w + k)%nat (trace w ++ evs).

(** The events of [k] consecutive failed attempts on one provider, the first
    of them followed by a timer of [delay]. *)
Fixpoint failed_attempts (prov : EmailProvider) (emailData : EmailData)
    (delay : Z) (k : nat) : list Event :=
  match k with
  | O => []
  | S k' =>
      EvSendEmail prov emailData :: EvSetTimeout delay ::
      failed_attempts prov emailData (delay * 2) k'
  end.

(** The provider [prov] fails on the draw at offset [j] from the position of
    [w]. *)
Definition draw_fails (w : World) (prov : EmailProvider) (j : nat) : Prop :=
  Qltb (random w (random_pos w + j)%nat) (failureRate prov) = true.

Definition draw_succeeds (w : World) (prov : EmailProvider) (j : nat) : Prop :=
  Qltb (random w (random_pos w + j)%nat) (failureRate prov) = false.

(** Number of iterations the retry loop can still make. *)
Definition budget (this : EmailService) (attempts : Z) : nat :=
  Z.to_nat (maxRetries this - attempts).

(** The two ways the loop can end. *)
Definition loop_success (this : EmailService) (prov : EmailProvider)
    (emailId : string) (emailData : EmailData) (attempts delay : Z) (w : World)
    (k : nat) : option Status * EmailService * World :=
  let status := Sent (name prov) (attempts + Z.of_nat k + 1) in
  (Some status, set_status (add_sent this emailId) emailId status,
   advance w (S k)
     (failed_attempts prov emailData delay k ++ [EvSendEmail prov emailData])).

Definition loop_exhausted (this : EmailService) (prov : EmailProvider)
    (emailData : EmailData) (delay : Z) (w : World) (n : nat)
  : option Status * EmailService * World :=
  (None, this, advance w n (failed_attempts prov emailData delay n)).

(** Events of the providers that used up their whole budget of [n]
    attempts, in order. *)
Fixpoint exhausted_events (emailData : EmailData) (n : nat)
    (ps : list EmailProvider) : list Event :=
  match ps with
  | [] => []
  | p :: ps' => failed_attempts p emailData 100 n ++ exhausted_events emailData n ps'
  end.

(** Every provider of [ps], in order, fails on each of its [n] draws. *)
Fixpoint all_exhaust (w : World) (n : nat) (ps : list EmailProvider) : Prop :=
  match ps with
  | [] => True
  | p :: ps' => (∀ j, (j < n)%nat → draw_fails w p j) ∧ all_exhaust (advance w n []) n ps'
  end.

Definition failure_status (this : EmailService) : Status :=
  Failed (maxRetries this * Z.of_nat (length (providers this))).

Definition undefined_provider : JsError :=
  TypeError "Cannot read properties of undefined (reading 'name')".

(** The three ways the provider loop can end. *)
Inductive loop_outcome (this : EmailService) (rest : list (option EmailProvider))
    (w : World) : Type :=
| SucceedsAt (before : list EmailProvider) (prov : EmailProvider)
    (after : list (option EmailProvider)) (k : nat)
| AllFail (ps : list EmailProvider)
| MissingAt (before : list EmailProvider) (after : list (option EmailProvider)).
Arguments SucceedsAt {this rest w}.
Arguments AllFail {this rest w}.
Arguments MissingAt {this rest w}.

Definition outcome_holds {this rest w} (o : loop_outcome this rest w) : Prop :=
  let n := budget this 0 in
  match o with
  | SucceedsAt before prov after k =>
      rest = (Some <$> before) ++ Some prov :: after ∧
      all_exhaust w n before ∧ (k < n)%nat ∧
      (∀ j, (j < k)%nat → draw_fails w prov (length before * n + j)) ∧
      draw_succeeds w prov (length before * n + k)
  | AllFail ps => rest = Some <$> ps ∧ all_exhaust w n ps
  | MissingAt before after =>
      rest = (Some <$> before) ++ None :: after ∧ all_exhaust w n before
  end.

Definition outcome_result {this rest w} (o : loop_outcome this rest w)
    (emailId : string) (emailData : EmailData)
  : Completion (option Status) * EmailService * World :=
  let n := budget this 0 in
  match o with
  | SucceedsAt before prov after k =>
      let status := Sent (name prov) (Z.of_nat k + 1) in
      (Returns (Some status), set_status (add_sent this emailId) emailId status,
       advance w (length before * n + S k)
         (exhausted_events emailData n before
            ++ failed_attempts prov emailData 100 k ++ [EvSendEmail prov emailData]))
  | AllFail ps =>
      (Returns (Some (failure_status this)),
       set_status this emailId (failure_status this),
       advance w (length ps * n) (exhausted_events emailData n ps))
  | MissingAt before after =>
      (Throws undefined_provider, this,
       advance w (length before * n) (exhausted_events emailData n before))
  end.

(** The world right after the admission check of [send]. *)
Definition after_check (w : World) : World := (Date_now w).2.

(** The time read by the next call of [Date.now]. *)
Definition next_now (w : World) : Z := clock w (clock_pos w).

(** What every state of one service has in common. *)
Record service_inv (provider1 provider2 : option EmailProvider) (retries : Z)
    (this : EmailService) : Prop := mkInv {
  inv_providers : providers this = [provider1; provider2];
  inv_maxRetries : maxRetries this = retries;
  inv_limit : limit (rateLimiter this) = 5;
  inv_intervalMs : intervalMs (rateLimiter this) = 10000;
  inv_sent : ∀ emailId,
    emailId ∈ sentEmails this ↔ ∃ p a, statusMap this !! emailId = Some (Sent p a) }.

(** [reachable s0 s]: [s] is the state of the service [s0] after some calls
    of [send], each in an arbitrary world. *)
Inductive reachable (s0 : EmailService) : EmailService → Prop :=
| reach_refl : reachable s0 s0
| reach_send s emailId emailData w c s' w' :
    reachable s0 s →
    send s emailId emailData w = (c, s', w') →
    reachable s0 s'.

(** [sent_by this emailData w w' pn a before prov after k]: in the dispatch
    from world [w] to world [w'], the providers [before] each used their
    whole budget, then [prov] failed [k] times and succeeded on its next
    attempt, and the reported status is [Sent pn a]. *)
Definition sent_by (this : EmailService) (emailData : EmailData) (w w' : World)
    (pn : string) (a : Z) (before : list EmailProvider) (prov : EmailProvider)
    (after : list (option EmailProvider)) (k : nat) : Prop :=
  let n := budget this 0 in
  providers this = (Some <$> before) ++ Some prov :: after ∧
  pn = name prov ∧
  a = Z.of_nat k + 1 ∧
  Z.of_nat k < maxRetries this ∧
  all_exhaust w n before ∧
  (∀ j, (j < k)%nat → draw_fails w prov (length before * n + j)) ∧
  draw_succeeds w prov (length before * n + k) ∧
  trace w' = trace w ++ EvDateNow (next_now w) ::
               exhausted_events emailData n before ++
               failed_attempts prov emailData 100 k ++
               [EvSendEmail prov emailData].

(** [n] successive calls of [isAllowed]; the log pairs the time each call
    read with its decision. *)
Fixpoint checks (n : nat) (this : RateLimiter) (w : World)
  : list (Z * bool) * RateLimiter * World :=
  match n with
  | O => ([], this, w)
  | S n' =>
      let '(allowed, this1, w1) := isAllowed this w in
      let '(log, this2, w2) := checks n' this1 w1 in
      ((next_now w, allowed) :: log, this2, w2)
  end.

(** The times of the admitted calls of a log, in order. *)
Fixpoint admitted (log : list (Z * bool)) : list Z :=
  match log with
  | [] => []
  | (t, allowed) :: log' => if allowed then t :: admitted log' else admitted log'
  end.

(** [ts] lies in the trailing window of length [intervalMs] that ends at
    [t]: it is not after [t] and [isAllowed] called at [t] would keep it. *)
Definition in_window (intervalMs t ts : Z) : Prop := ts ≤ t ∧ t - ts < intervalMs.

Global Instance in_window_dec intervalMs t ts : Decision (in_window intervalMs t ts).
Proof. unfold in_window. apply _. Defined.

Definition admitted_in_window (intervalMs t : Z) (log : list (Z * bool)) : nat :=
  length (filter (in_window intervalMs t) (admitted log)).

(** From the position of [w] on, the clock never goes back. *)
Definition monotone_clock (w : World) : Prop :=
  ∀ i j, (clock_pos w ≤ i)%nat → (i ≤ j)%nat → clock w i ≤ clock w j.

(** What links the retained timestamps of a limiter with the history
    [hist] of all the calls it admitted, when the next call reads a time
    [lo] or later. *)
Record limiter_inv (lim interval : Z) (this : RateLimiter) (hist : list Z)
    (lo : Z) : Prop := {
  li_limit : limit this = lim;
  li_interval : intervalMs this = interval;
  li_retained : ∀ now, lo ≤ now →
    filter (λ ts, now - ts < interval) (timestamps this)
    = filter (λ ts, now - ts < interval) hist;
  li_past : ∀ ts, ts ∈ hist → ts ≤ lo;
  li_window : ∀ t, Z.of_nat (length (filter (in_window interval t) hist)) ≤ lim;
  li_length : Z.of_nat (length (timestamps this)) ≤ lim }.

(** ** The driver of the source file *)

Definition provider1 : EmailProvider :=
  new_EmailProvider "MockProvider1" (Some (7 # 10)%Q).

Definition provider2 : EmailProvider :=
  new_EmailProvider "MockProvider2" (Some (1 # 2)%Q).

(** [new EmailService(provider1, provider2)] *)
Definition emailService : EmailService :=
  mkEmailService [Some provider1; Some provider2] 3 ∅ ∅ (new_RateLimiter 5 10000).

(** A world whose clock starts at [t0] and advances by one at each reading,
    whose random source yields [draws] and then a value no provider fails
    on, and whose trace is empty. *)
Definition scripted (t0 : Z) (draws : list Q) : World :=
  mkWorld (λ n, t0 + Z.of_nat n) 0 (λ n, nth n draws (9 # 10)%Q) 0 [].

Definition hello : EmailData := mkEmailData "a@test.com" "Hello".
Definition duplicate : EmailData := mkEmailData "a@test.com" "Duplicate".

(** The state of the driver's service after [email-1] went out on the first
    attempt. *)
Definition after_email_1 : EmailService :=
  (send emailService "email-1" hello (scripted 0 [(9 # 10)%Q])).1.2.

(** The state of the driver's service after every attempt for [email-2]
    failed. *)
Definition after_email_2_failed : EmailService :=
  (send emailService "email-2" hello (scripted 0 [0; 0; 0; 0; 0; 0]%Q)).1.2.

(** The service built without any provider. *)
Definition no_providers : EmailService :=
  mkEmailService [None; None] 3 ∅ ∅ (new_RateLimiter 5 10000).

(** ** Vocabulary of the further properties *)

(** The random source stays in the range of [Math.random], from 0
    inclusive to 1 exclusive. *)
Definition unit_draws (w : World) : Prop :=
  ∀ n, (0 <= random w n)%Q ∧ (random w n < 1)%Q.

(** Any two of the next [n] readings of the clock are less than [interval]
    apart. *)
Definition clock_within (interval : Z) (n : nat) (w : World) : Prop :=
  ∀ i j, (clock_pos w ≤ i < clock_pos w + n)%nat →
         (clock_pos w ≤ j < clock_pos w + n)%nat →
         clock w j - clock w i < interval.

(** Reference limiter, which forgets nothing: it keeps the times [hist] of
    all the calls it admitted and, called at [now], admits when fewer than
    [lim] of them are less than [interval] old.  The result lists its
    decisions on calls made at [times]. *)
Fixpoint history_checks (lim interval : Z) (hist times : list Z) : list bool :=
  match times with
  | [] => []
  | now :: times' =>
      let allowed :=
        bool_decide (Z.of_nat (length (filter (λ ts, now - ts < interval) hist)) < lim) in
      allowed :: history_checks lim interval (if allowed then hist ++ [now] else hist) times'
  end.

(** [called s0 ids s]: [s] is the state of the service [s0] after calls of
    [send] on the identities [ids], latest first, each in an arbitrary
    world. *)
Inductive called (s0 : EmailService) : list string → EmailService → Prop :=
| called_nil : called s0 [] s0
| called_send ids s emailId emailData w c s' w' :
    called s0 ids s →
    send s emailId emailData w = (c, s', w') →
    called s0 (emailId :: ids) s'.

(** The shape of the statuses that [send] stores. *)
Definition well_formed (this : EmailService) (status : Status) : Prop :=
  match status with
  | Sent p a =>
      1 ≤ a ≤ maxRetries this ∧ ∃ prov, Some prov ∈ providers this ∧ p = name prov
  | RateLimited a => a = 0
  | Failed a => a = maxRetries this * Z.of_nat (length (providers this))
  | Unknown => False
  end.

(** Number of provider calls among some events. *)
Definition provider_calls (evs : list Event) : nat :=
  foldr (λ e acc, match e with EvSendEmail _ _ => S acc | _ => acc end) 0%nat evs.

(** Total time of the timers among some events. *)
Definition total_delay (evs : list Event) : Z :=
  foldr (λ e acc, match e with EvSetTimeout delay => delay + acc | _ => acc end) 0 evs.

(** Total time of the timers of [n] failed attempts on one provider. *)
Definition exhaust_delay (n : nat) : Z := 100 * (2 ^ Z.of_nat n - 1).

(** [burst_inv w0 s w]: since the world [w0], the clock of [w] is the same
    stream, the timestamps of the limiter of [s] are readings made since
    [w0], and there is one for each reading, up to five. *)
Definition burst_inv (w0 : World) (s : EmailService) (w : World) : Prop :=
  clock w = clock w0 ∧
  (clock_pos w0 ≤ clock_pos w)%nat ∧
  (∀ ts, ts ∈ timestamps (rateLimiter s) →
         ∃ i, (clock_pos w0 ≤ i < clock_pos w)%nat ∧ ts = clock w0 i) ∧
  length (timestamps (rateLimiter s)) = (5 `min` (clock_pos w - clock_pos w0))%nat.

(** A provider that never fails and one that always fails, and services
    built on them. *)
Definition reliable : EmailProvider := new_EmailProvider "Reliable" (Some 0%Q).

Definition hopeless : EmailProvider := new_EmailProvider "Hopeless" (Some 1%Q).

Definition reliable_service : EmailService :=
  mkEmailService [Some reliable; Some hopeless] 3 ∅ ∅ (new_RateLimiter 5 10000).

Definition hopeless_service : EmailService :=
  mkEmailService [Some hopeless; Some hopeless] 3 ∅ ∅ (new_RateLimiter 5 10000).

(** [new EmailService(provider1, provider2, 0)] *)
Definition no_retry_service : EmailService :=
  mkEmailService [Some provider1; Some provider2] 0 ∅ ∅ (new_RateLimiter 5 10000).

(** *** The driver itself, lines 102-124 *)

(** What the driver passes to [console.log]: a fixed text, or the value of
    a call of [send] or [getStatus]. *)
Inductive Logged :=
| LogText (text : string)
| LogValue (v : option Status).

(** A run of the driver: the service, the world, what the driver has logged
    so far, and the exception that stopped it, if any.  An exception of an
    awaited [send] ends the driver, so nothing happens after it. *)
Record Run := mkRun {
  svc : EmailService;
  world : World;
  console : list Logged;
  failure : option JsError }.

(** [console.log(text)] *)
Definition log_text (text : string) (r : Run) : Run :=
  match failure r with
  | Some _ => r
  | None => mkRun (svc r) (world r) (console r ++ [LogText text]) None
  end.

(** [console.log(await emailService.send(emailId, emailData))] *)
Definition log_send (emailId : string) (emailData : EmailData) (r : Run) : Run :=
  match failure r with
  | Some _ => r
  | None =>
      match send (svc r) emailId emailData (world r) with
      | (Returns v, s', w') => mkRun s' w' (console r ++ [LogValue v]) None
      | (Throws e, s', w') => mkRun s' w' (console r) (Some e)
      end
  end.

(** [console.log(emailService.getStatus(emailId))] *)
Definition log_status (emailId : string) (r : Run) : Run :=
  match failure r with
  | Some _ => r
  | None =>
      mkRun (svc r) (world r)
        (console r ++ [LogValue (Some (getStatus (svc r) emailId))]) None
  end.

(** Awaited calls of [send] one after the other, each one logged. *)
Definition log_sends (calls : list (string * EmailData)) (r : Run) : Run :=
  foldl (λ r call, log_send call.1 call.2 r) r calls.

(** The calls of the loop of test 4, [for (let i = 3; i <= 8; i++)]. *)
Definition rate_limit_calls : list (string * EmailData) :=
  (λ i : nat, ("email-" +:+ pretty i,
               mkEmailData ("user" +:+ pretty i +:+ "@test.com") "Rate limit"))
    <$> seq 3 6.

Definition retry_test : EmailData := mkEmailData "b@test.com" "Retry test".

(** The run after each of the first three tests and after the loop of the
    fourth, and the whole driver. *)
Definition after_test_1 (w : World) : Run :=
  log_send "email-1" hello
    (log_text "Test 1: Successful email send" (mkRun emailService w [] None)).

Definition after_test_2 (w : World) : Run :=
  log_send "email-2" retry_test (log_text "Test 2: Retry and fallback" (after_test_1 w)).

Definition after_test_3 (w : World) : Run :=
  log_send "email-1" duplicate (log_text "Test 3: Idempotency" (after_test_2 w)).

Definition after_test_4 (w : World) : Run :=
  log_sends rate_limit_calls (log_text "Test 4: Rate limiting" (after_test_3 w)).

Definition driver (w : World) : Run :=
  log_status "email-100"
    (log_status "email-1" (log_text "Test 5: Status tracking" (after_test_4 w))).

(** A run that has not failed, on a service with the limiter of the
    constructor and no missing provider, in the conditions of [burst_inv]. *)
Definition burst_run (w0 : World) (r : Run) : Prop :=
  failure r = None ∧
  burst_inv w0 (svc r) (world r) ∧
  (None ∉ providers (svc r)) ∧
  limit (rateLimiter (svc r)) = 5 ∧
  intervalMs (rateLimiter (svc r)) = 10000.

(** What the call number [k] of a burst logs: a dispatched result for the
    first five calls, [RateLimited] after them. *)
Definition burst_value (k : nat) (v : option Status) : Prop :=
  if bool_decide (k < 5)%nat
  then ∃ status, v = Some status ∧
                 ((∃ p a, status = Sent p a) ∨ (∃ a, status = Failed a))
  else v = Some (RateLimited 0).

(** A run of the driver that has not failed, after calls of [send] on the
    identities [ids], latest first. *)
Definition run_ok (ids : list string) (r : Run) : Prop :=
  failure r = None ∧ called emailService ids (svc r).

(** ** Events provider by provider *)

(** The events of [block] are calls of [prov] with the payload [emailData]
    and timers. *)
Definition block_of (prov : EmailProvider) (emailData : EmailData)
    (block : list Event) : Prop :=
  Forall (λ e, e = EvSendEmail prov emailData ∨ ∃ delay, e = EvSetTimeout delay) block.

(** [block] holds what a call of [send] did on the entry [slot] of the
    provider array: the entry is a provider, the calls of the block are
    calls of that provider, at most [n] of them, and its timers add up to at
    most the time of [n] failed attempts. *)
Definition within_budget (n : nat) (emailData : EmailData)
    (slot : option EmailProvider) (block : list Event) : Prop :=
  ∃ prov,
    slot = Some prov ∧
    block_of prov emailData block ∧
    (provider_calls block ≤ n)%nat ∧
    0 ≤ total_delay block ≤ exhaust_delay n.

(** [block] holds [n] failed attempts on [prov]: [n] calls of [prov], each
    followed by a timer, the last one included. *)
Definition spent (n : nat) (emailData : EmailData) (prov : EmailProvider)
    (block : list Event) : Prop :=
  block = failed_attempts prov emailData 100 n ∧
  block_of prov emailData block ∧
  provider_calls block = n ∧
  total_delay block = exhaust_delay n ∧
  ((0 < n)%nat → last block = Some (EvSetTimeout (100 * 2 ^ (Z.of_nat n - 1)))).

(** ** [send] cut at its [await]s

    A call of [send] runs without interruption up to an [await], where it
    is suspended and other code, other calls of [send] included, may run on
    the same service before it resumes.  [send] awaits in two places: the
    promise of [provider.sendEmail] at line 64 and the timer at line 78.
    [sendEmail] has no [await] of its own, so its body runs at the call and
    its promise is settled when [send] is suspended on it. *)

(** Where a call is suspended, with the local variables it resumes with:
    the index [i] of the [for] loop, [provider], [attempts] and [delay]. *)
Inductive Suspended :=
| AwaitSendEmail (i : nat) (prov : EmailProvider) (attempts delay : Z)
    (settled : Completion Receipt)
| AwaitTimer (i : nat) (prov : EmailProvider) (attempts delay : Z).

Inductive Progress :=
| Suspends (k : Suspended)
| Completes (c : Completion (option Status)).

(** The [for] loop from index [i] on, up to the first [await] or to the end
    of [send]; [rest] is the provider array from index [i] on.  A provider
    whose [while] test fails at once is skipped. *)
Fixpoint enter_providers (this : EmailService) (i : nat)
    (rest : list (option EmailProvider)) (emailId : string)
    (emailData : EmailData) (w : World) : Progress * EmailService * World :=
  match rest with
  | [] =>
      let failureStatus :=
        Failed (maxRetries this * Z.of_nat (length (providers this))) in
      (Completes (Returns (Some failureStatus)),
       set_status this emailId failureStatus, w)
  | None :: _ => (Completes (Throws undefined_provider), this, w)
  | Some prov :: rest' =>
      if decide (0 < maxRetries this)
      then
        let '(settled, w1) := sendEmail prov emailData w in
        (Suspends (AwaitSendEmail i prov 0 100 settled), this, w1)
      else enter_providers this (S i) rest' emailId emailData w
  end.

(** The test of the [while] loop, line 62, and what follows it up to the
    next [await] or to the end of [send]. *)
Definition loop_test (this : EmailService) (i : nat) (prov : EmailProvider)
    (emailId : string) (emailData : EmailData) (attempts delay : Z) (w : World)
  : Progress * EmailService * World :=
  if decide (attempts < maxRetries this)
  then
    let '(settled, w1) := sendEmail prov emailData w in
    (Suspends (AwaitSendEmail i prov attempts delay settled), this, w1)
  else
    enter_providers this (S i) (drop (S i) (providers this)) emailId emailData w.

(** A call of [send] from its start to its first [await], or to its end. *)
Definition send_start (this : EmailService) (emailId : string)
    (emailData : EmailData) (w : World) : Progress * EmailService * World :=
  if decide (emailId ∈ sentEmails this)
  then (Completes (Returns (statusMap this !! emailId)), this, w)
  else
    let '(allowed, rl, w1) := isAllowed (rateLimiter this) w in
    let this1 := set_rateLimiter this rl in
    if negb allowed
    then
      let status := RateLimited 0 in
      (Completes (Returns (Some status)), set_status this1 emailId status, w1)
    else enter_providers this1 0 (providers this1) emailId emailData w1.

(** A suspended call of [send] from the [await] it is suspended on to the
    next one, or to its end, on the service as it is when the call
    resumes. *)
Definition send_resume (this : EmailService) (emailId : string)
    (emailData : EmailData) (k : Suspended) (w : World)
  : Progress * EmailService * World :=
  match k with
  | AwaitSendEmail i prov attempts delay (Returns result) =>
      let status := Sent (provider result) (attempts + 1) in
      (Completes (Returns (Some status)),
       set_status (add_sent this emailId) emailId status, w)
  | AwaitSendEmail i prov attempts delay (Throws err) =>
      (Suspends (AwaitTimer i prov (attempts + 1) delay), this, sleep delay w)
  | AwaitTimer i prov attempts delay =>
      loop_test this i prov emailId emailData attempts (delay * 2) w
  end.

(** A call run with no other call in between: [runs_alone emailId
    emailData p s w c s' w'] when the call, at progress [p] on service [s]
    in world [w], ends with [c] on service [s'] in world [w']. *)
Inductive runs_alone (emailId : string) (emailData : EmailData)
  : Progress → EmailService → World →
    Completion (option Status) → EmailService → World → Prop :=
| alone_done c s w : runs_alone emailId emailData (Completes c) s w c s w
| alone_step k s w p s1 w1 c s' w' :
    send_resume s emailId emailData k w = (p, s1, w1) →
    runs_alone emailId emailData p s1 w1 c s' w' →
    runs_alone emailId emailData (Suspends k) s w c s' w'.

(** An identity with a [Sent] record is in the set of sent identities. *)
Definition sent_recorded (s : EmailService) : Prop :=
  ∀ emailId p a, statusMap s !! emailId = Some (Sent p a) → emailId ∈ sentEmails s.

(** The call at [x] (its progress, the service and the world), run
    alone, ends as [y]. *)
Definition ends_as (emailId : string) (emailData : EmailData)
    (x : Progress * EmailService * World)
    (y : Completion (option Status) * EmailService * World) : Prop :=
  runs_alone emailId emailData x.1.1 x.1.2 x.2 y.1.1 y.1.2 y.2.

(** [interleaved s0 s]: [s] is the state of the service [s0] after some
    steps of calls of [send], in any order and each in an arbitrary world:
    starts of new calls and resumptions of suspended ones. *)
Inductive interleaved (s0 : EmailService) : EmailService → Prop :=
| inter_refl : interleaved s0 s0
| inter_start s emailId emailData w p s' w' :
    interleaved s0 s →
    send_start s emailId emailData w = (p, s', w') →
    interleaved s0 s'
| inter_resume s emailId emailData k w p s' w' :
    interleaved s0 s →
    send_resume s emailId emailData k w = (p, s', w') →
    interleaved s0 s'.

(** Calls in flight on one service. *)
Record Call := mkCall {
  call_emailId : string;
  call_emailData : EmailData;
  call_progress : Progress }.

Record System := mkSystem {
  sys_service : EmailService;
  sys_calls : list Call;
  sys_world : World }.

(** What the event loop does next: start a new call of [send], or resume
    the call number [n]. *)
Inductive Action :=
| StartSend (emailId : string) (emailData : EmailData)
| Resume (n : nat).

Definition act (sys : System) (a : Action) : System :=
  match a with
  | StartSend emailId emailData =>
      let '(p, s', w') :=
        send_start (sys_service sys) emailId emailData (sys_world sys) in
      mkSystem s' (sys_calls sys ++ [mkCall emailId emailData p]) w'
  | Resume n =>
      match sys_calls sys !! n with
      | Some (mkCall emailId emailData (Suspends k)) =>
          let '(p, s', w') :=
            send_resume (sys_service sys) emailId emailData k (sys_world sys) in
          mkSystem s' (<[n := mkCall emailId emailData p]> (sys_calls sys)) w'
      | _ => sys
      end
  end.

Definition run_schedule (sys : System) (actions : list Action) : System :=
  foldl act sys actions.

(** Two calls of [send] on [email-1] started one right after the other on
    the driver's service, as in
    [Promise.all([s.send("email-1", a), s.send("email-1", b)])]: the first
    delivers at once, the second fails on every attempt.  The promise of the
    first call settles first, so the first call resumes first. *)
Definition overlap_world : World := scripted 0 [9 # 10; 0; 0; 0; 0; 0; 0]%Q.

Definition overlap_start : list Action :=
  [StartSend "email-1" hello; StartSend "email-1" duplicate; Resume 0].

Definition overlap_rest : list Action := replicate 12 (Resume 1).

Definition after_first_delivers : System :=
  run_schedule (mkSystem emailService [] overlap_world) overlap_start.

Definition after_overlap : System := run_schedule after_first_delivers overlap_rest.

(** * Properties *)

(** ** The retry loop *)

Lemma advance_0_nil w : advance w 0 [] = w.
Proof.
  destruct w; unfold advance; simpl. by rewrite Nat.add_0_r, app_nil_r.
Qed.

Lemma advance_advance w k1 evs1 k2 evs2 :
  advance (advance w k1 evs1) k2 evs2 = advance w (k1 + k2) (evs1 ++ evs2).
Proof.
  unfold advance; simpl. by rewrite Nat.add_assoc, app_assoc.
Qed.

Lemma sendEmail_fails prov emailData w :
  draw_fails w prov 0 →
  sendEmail prov emailData w
  = (Throws (Error (name prov +:+ " failed to send email")),
     advance w 1 [EvSendEmail prov emailData]).
Proof.
  unfold draw_fails, sendEmail, Math_random, emit, advance; simpl.
  rewrite Nat.add_0_r. intros ->. by rewrite Nat.add_1_r.
Qed.

Lemma sendEmail_succeeds prov emailData w :
  draw_succeeds w prov 0 →
  sendEmail prov emailData w
  = (Returns (mkReceipt true (name prov)),
     advance w 1 [EvSendEmail prov emailData]).
Proof.
  unfold draw_succeeds, sendEmail, Math_random, emit, advance; simpl.
  rewrite Nat.add_0_r. intros ->. by rewrite Nat.add_1_r.
Qed.

Lemma draw_dec w prov j : {draw_fails w prov j} + {draw_succeeds w prov j}.
Proof.
  unfold draw_fails, draw_succeeds.
  destruct (Qltb _ _); [by left | by right].
Qed.

(** One unfolding of the loop, in the shape of the source. *)
Lemma retry_loop_step this prov emailId emailData attempts delay w :
  retry_loop this prov emailId emailData attempts delay w =
  if decide (attempts < maxRetries this) then
    match sendEmail prov emailData w with
    | (Returns result, w1) =>
        let status := Sent (provider result) (attempts + 1) in
        (Some status, set_status (add_sent this emailId) emailId status, w1)
    | (Throws err, w1) =>
        retry_loop this prov emailId emailData (attempts + 1) (delay * 2)
          (sleep delay w1)
    end
  else (None, this, w).
Proof.
  simp retry_loop.
  destruct (decide (attempts < maxRetries this)); simpl; [|done].
  destruct (sendEmail prov emailData w) as [[result|err] w1]; by simpl.
Qed.

Lemma sleep_advance delay w k evs :
  sleep delay (advance w k evs) = advance w k (evs ++ [EvSetTimeout delay]).
Proof. unfold sleep, emit, advance; simpl. by rewrite app_assoc. Qed.

Lemma draw_fails_advance w k evs prov j :
  draw_fails (advance w k evs) prov j ↔ draw_fails w prov (k + j).
Proof. unfold draw_fails, advance; simpl. by rewrite Nat.add_assoc. Qed.

Lemma draw_succeeds_advance w k evs prov j :
  draw_succeeds (advance w k evs) prov j ↔ draw_succeeds w prov (k + j).
Proof. unfold draw_succeeds, advance; simpl. by rewrite Nat.add_assoc. Qed.

Lemma draw_fails_succeeds w prov j : draw_fails w prov j → draw_succeeds w prov j → False.
Proof. unfold draw_fails, draw_succeeds. congruence. Qed.

Lemma retry_loop_cases n :
  ∀ this prov emailId emailData attempts delay w,
    budget this attempts = n →
    (∃ k, (k < n)%nat ∧ (∀ j, (j < k)%nat → draw_fails w prov j) ∧
          draw_succeeds w prov k ∧
          retry_loop this prov emailId emailData attempts delay w
          = loop_success this prov emailId emailData attempts delay w k)
    ∨ ((∀ j, (j < n)%nat → draw_fails w prov j) ∧
       retry_loop this prov emailId emailData attempts delay w
       = loop_exhausted this prov emailData delay w n).
Proof.
  unfold budget.
  induction n as [|n IH]; intros this prov emailId emailData attempts delay w Hn;
    rewrite retry_loop_step.
  - right. split; [lia|].
    destruct (decide (attempts < maxRetries this)); [lia|].
    unfold loop_exhausted; simpl. by rewrite advance_0_nil.
  - destruct (decide (attempts < maxRetries this)); [|lia].
    destruct (draw_dec w prov 0) as [Hf|Hs].
    + rewrite (sendEmail_fails _ _ _ Hf), sleep_advance.
      set (evs := [EvSendEmail prov emailData] ++ [EvSetTimeout delay]).
      destruct (IH this prov emailId emailData (attempts + 1) (delay * 2)
                  (advance w 1 evs))
        as [(k & Hk & Hfs & Hsk & ->)|[Hfs ->]]; [lia| |].
      * left. exists (S k). split; [lia|]. split.
        { intros [|j] Hj; [done|].
          apply (proj1 (draw_fails_advance w 1 evs prov j)), Hfs. lia. }
        split; [exact (proj1 (draw_succeeds_advance w 1 evs prov k) Hsk)|].
        unfold loop_success. rewrite advance_advance. simpl.
        by replace (attempts + 1 + Z.of_nat k + 1)
          with (attempts + Z.of_nat (S k) + 1) by lia.
      * right. split.
        { intros [|j] Hj; [done|].
          apply (proj1 (draw_fails_advance w 1 evs prov j)), Hfs. lia. }
        unfold loop_exhausted. by rewrite advance_advance.
    + left. exists 0%nat. split; [lia|]. split; [lia|]. split; [done|].
      rewrite (sendEmail_succeeds _ _ _ Hs). unfold loop_success; simpl.
      by replace (attempts + Z.of_nat 0 + 1) with (attempts + 1) by lia.
Qed.

(** The loop gives up exactly when every draw of its budget fails. *)
Lemma retry_loop_all_fail this prov emailId emailData attempts delay w :
  (∀ j, (j < budget this attempts)%nat → draw_fails w prov j) →
  retry_loop this prov emailId emailData attempts delay w
  = loop_exhausted this prov emailData delay w (budget this attempts).
Proof.
  intros Hall.
  destruct (retry_loop_cases (budget this attempts) this prov emailId emailData
              attempts delay w eq_refl) as [(k & Hk & _ & Hs & _)|[_ ->]]; [|done].
  destruct (draw_fails_succeeds w prov k); auto.
Qed.

(** The loop succeeds on the first draw that does not fail. *)
Lemma retry_loop_first_success this prov emailId emailData attempts delay w k :
  (k < budget this attempts)%nat →
  (∀ j, (j < k)%nat → draw_fails w prov j) →
  draw_succeeds w prov k →
  retry_loop this prov emailId emailData attempts delay w
  = loop_success this prov emailId emailData attempts delay w k.
Proof.
  intros Hk Hfs Hs.
  destruct (retry_loop_cases (budget this attempts) this prov emailId emailData
              attempts delay w eq_refl) as [(k' & Hk' & Hfs' & Hs' & ->)|[Hall _]].
  - destruct (Nat.lt_trichotomy k k') as [Hlt|[->|Hgt]]; [|done|].
    + destruct (draw_fails_succeeds w prov k); auto.
    + destruct (draw_fails_succeeds w prov k'); auto.
  - destruct (draw_fails_succeeds w prov k); auto.
Qed.

(** ** The provider loop *)

Lemma all_exhaust_trace w k evs n ps :
  all_exhaust (advance w k evs) n ps ↔ all_exhaust (advance w k []) n ps.
Proof.
  revert w k evs. induction ps as [|p ps IH]; intros w k evs; simpl; [done|].
  rewrite !advance_advance. rewrite (IH w (k + n)%nat (evs ++ [])).
  by setoid_rewrite draw_fails_advance.
Qed.

(** Outcome of the provider loop when every remaining provider is defined
    and uses up its budget. *)
Lemma for_providers_all_fail ps :
  ∀ this emailId emailData w,
    all_exhaust w (budget this 0) ps →
    for_providers this (Some <$> ps) emailId emailData w
    = (Returns (Some (failure_status this)),
       set_status this emailId (failure_status this),
       advance w (length ps * budget this 0)
         (exhausted_events emailData (budget this 0) ps)).
Proof.
  induction ps as [|p ps IH]; intros this emailId emailData w Hall; simpl.
  - by rewrite advance_0_nil.
  - destruct Hall as [Hp Hps].
    rewrite (retry_loop_all_fail _ _ _ _ _ _ _ Hp). unfold loop_exhausted.
    rewrite IH by (by apply all_exhaust_trace).
    by rewrite advance_advance.
Qed.

(** Outcome of the provider loop when the providers [before] use up their
    budget and [prov] succeeds on its attempt number [k + 1]. *)
Lemma for_providers_success before :
  ∀ this prov rest emailId emailData w k,
    let n := budget this 0 in
    let w1 := advance w (length before * n) [] in
    all_exhaust w n before →
    (k < n)%nat →
    (∀ j, (j < k)%nat → draw_fails w1 prov j) →
    draw_succeeds w1 prov k →
    for_providers this ((Some <$> before) ++ Some prov :: rest) emailId emailData w
    = (Returns (Some (Sent (name prov) (Z.of_nat k + 1))),
       set_status (add_sent this emailId) emailId (Sent (name prov) (Z.of_nat k + 1)),
       advance w (length before * n + S k)
         (exhausted_events emailData n before
            ++ failed_attempts prov emailData 100 k ++ [EvSendEmail prov emailData])).
Proof.
  induction before as [|p before IH];
    intros this prov rest emailId emailData w k n w1 Hall Hk Hfs Hs; simpl.
  - subst w1. simpl in *. rewrite advance_0_nil in Hfs, Hs.
    rewrite (retry_loop_first_success _ _ _ _ _ _ _ k Hk Hfs Hs).
    unfold loop_success. simpl. by rewrite Z.add_0_l.
  - destruct Hall as [Hp Hps].
    rewrite (retry_loop_all_fail _ _ _ _ _ _ _ Hp). unfold loop_exhausted.
    fold n. subst w1. simpl in *.
    rewrite (IH this prov rest emailId emailData _ k).
    + rewrite advance_advance. by rewrite Nat.add_assoc, <- app_assoc.
    + by apply all_exhaust_trace.
    + done.
    + intros j Hj. apply draw_fails_advance. rewrite draw_fails_advance.
      specialize (Hfs j Hj). apply draw_fails_advance in Hfs.
      rewrite Nat.add_assoc. exact Hfs.
    + apply draw_succeeds_advance. rewrite draw_succeeds_advance.
      apply draw_succeeds_advance in Hs.
      rewrite Nat.add_assoc. exact Hs.
Qed.

(** Outcome of the provider loop when the providers [before] use up their
    budget and the next slot of the array is [undefined]. *)
Lemma for_providers_undefined before :
  ∀ this rest emailId emailData w,
    all_exhaust w (budget this 0) before →
    for_providers this ((Some <$> before) ++ None :: rest) emailId emailData w
    = (Throws undefined_provider, this,
       advance w (length before * budget this 0)
         (exhausted_events emailData (budget this 0) before)).
Proof.
  induction before as [|p before IH]; intros this rest emailId emailData w Hall; simpl.
  - by rewrite advance_0_nil.
  - destruct Hall as [Hp Hps].
    rewrite (retry_loop_all_fail _ _ _ _ _ _ _ Hp). unfold loop_exhausted.
    rewrite IH by (by apply all_exhaust_trace).
    by rewrite advance_advance.
Qed.

Lemma outcome_sound this rest w (o : loop_outcome this rest w) emailId emailData :
  outcome_holds o →
  for_providers this rest emailId emailData w = outcome_result o emailId emailData.
Proof.
  destruct o as [before prov after k|ps|before after]; simpl.
  - intros (-> & Hall & Hk & Hfs & Hs).
    apply for_providers_success; [done..| |].
    + intros j Hj. apply draw_fails_advance. by apply Hfs.
    + by apply draw_succeeds_advance.
  - intros [-> Hall]. by apply for_providers_all_fail.
  - intros [-> Hall]. by apply for_providers_undefined.
Qed.

Lemma outcome_exists rest :
  ∀ this w, ∃ o : loop_outcome this rest w, outcome_holds o.
Proof.
  induction rest as [|[p|] rest IH]; intros this w.
  - by exists (AllFail []).
  - set (n := budget this 0).
    destruct (retry_loop_cases n this p "" (mkEmailData "" "") 0 100 w eq_refl)
      as [(k & Hk & Hfs & Hs & _)|[Hp _]].
    + exists (SucceedsAt [] p rest k). simpl. by repeat split.
    + destruct (IH this (advance w n [])) as [[before prov after k|ps|before after] Ho];
        simpl in Ho.
      * destruct Ho as (-> & Hall & Hk & Hfs & Hs).
        exists (SucceedsAt (p :: before) prov after k). simpl.
        repeat split; [done..| |].
        -- intros j Hj. specialize (Hfs j Hj). apply draw_fails_advance in Hfs.
           by rewrite Nat.add_assoc in Hfs.
        -- apply draw_succeeds_advance in Hs. by rewrite Nat.add_assoc in Hs.
      * destruct Ho as [-> Hall]. by exists (AllFail (p :: ps)).
      * destruct Ho as [-> Hall]. by exists (MissingAt (p :: before) after).
  - by exists (MissingAt [] rest).
Qed.

(** ** [send] *)

Lemma send_step this emailId emailData w :
  send this emailId emailData w =
  if decide (emailId ∈ sentEmails this)
  then (Returns (statusMap this !! emailId), this, w)
  else
    let r := isAllowed_at (next_now w) (rateLimiter this) in
    let this1 := set_rateLimiter this r.2 in
    if r.1
    then for_providers this1 (providers this) emailId emailData (after_check w)
    else (Returns (Some (RateLimited 0)), set_status this1 emailId (RateLimited 0),
          after_check w).
Proof.
  unfold send, isAllowed, after_check, next_now, Date_now; simpl.
  destruct (decide (emailId ∈ sentEmails this)); [done|].
  by destruct (isAllowed_at _ _) as [[] rl].
Qed.

Lemma isAllowed_at_config now this :
  limit (isAllowed_at now this).2 = limit this ∧
  intervalMs (isAllowed_at now this).2 = intervalMs this.
Proof. unfold isAllowed_at. by case_bool_decide. Qed.

Lemma new_EmailService_inv provider1 provider2 retries s0 :
  new_EmailService provider1 provider2 retries = Returns s0 →
  service_inv provider1 provider2 (default 3 retries) s0.
Proof.
  intros [= <-]. split; simpl; try done.
  intros emailId. split.
  - intros Hin. by apply not_elem_of_empty in Hin.
  - intros (p & a & H). by rewrite lookup_empty in H.
Qed.

Lemma service_inv_set_rateLimiter p1 p2 mr this now :
  service_inv p1 p2 mr this →
  service_inv p1 p2 mr (set_rateLimiter this (isAllowed_at now (rateLimiter this)).2).
Proof.
  intros [Hp Hm Hl Hi Hs]. destruct (isAllowed_at_config now (rateLimiter this)).
  split; simpl; try congruence. done.
Qed.

Lemma service_inv_set_status p1 p2 mr this emailId status :
  service_inv p1 p2 mr this →
  emailId ∉ sentEmails this →
  (∀ p a, status ≠ Sent p a) →
  service_inv p1 p2 mr (set_status this emailId status).
Proof.
  intros [Hp Hm Hl Hi Hs] Hid Hst. split; simpl; try done.
  intros id. rewrite Hs. destruct (decide (emailId = id)) as [<-|Hne].
  - rewrite lookup_insert_eq. split.
    + intros H. by apply Hs in H.
    + intros (p & a & [= ->]). by destruct (Hst p a).
  - by rewrite lookup_insert_ne.
Qed.

Lemma service_inv_sent p1 p2 mr this emailId p a :
  service_inv p1 p2 mr this →
  service_inv p1 p2 mr (set_status (add_sent this emailId) emailId (Sent p a)).
Proof.
  intros [Hp Hm Hl Hi Hs]. split; simpl; try done.
  intros id. destruct (decide (emailId = id)) as [<-|Hne].
  - rewrite lookup_insert_eq. split; [eauto|].
    intros _. apply elem_of_union_l. by apply elem_of_singleton.
  - rewrite lookup_insert_ne by done. rewrite <- Hs.
    rewrite elem_of_union, elem_of_singleton. intuition congruence.
Qed.

Lemma send_inv p1 p2 mr this emailId emailData w c this' w' :
  service_inv p1 p2 mr this →
  send this emailId emailData w = (c, this', w') →
  service_inv p1 p2 mr this'.
Proof.
  intros Hinv. rewrite send_step.
  destruct (decide (emailId ∈ sentEmails this)) as [Hin|Hnin]; [by intros [= _ <- _]|].
  pose proof (service_inv_set_rateLimiter _ _ _ _ (next_now w) Hinv) as Hinv1.
  cbv zeta. destruct (isAllowed_at (next_now w) (rateLimiter this)) as [[] rl];
    simpl in *.
  - destruct (outcome_exists (providers this) (set_rateLimiter this rl) (after_check w))
      as [o Ho].
    rewrite (outcome_sound _ _ _ o emailId emailData Ho).
    destruct o; simpl; intros [= _ <- _].
    + by apply service_inv_sent.
    + by apply service_inv_set_status.
    + done.
  - intros [= _ <- _]. by apply service_inv_set_status.
Qed.

Lemma reachable_inv p1 p2 mr s0 s :
  service_inv p1 p2 mr s0 → reachable s0 s → service_inv p1 p2 mr s.
Proof.
  intros H0 Hreach. induction Hreach; [done|]. by eapply send_inv.
Qed.

Lemma reach_send_result s0 s emailId emailData w :
  reachable s0 s → reachable s0 (send s emailId emailData w).1.2.
Proof.
  intros Hs. destruct (send s emailId emailData w) as [[c s'] w'] eqn:E.
  by eapply reach_send.
Qed.

(** [send] writes the status map at its own identity only. *)
Lemma send_statusMap_other this emailId emailData w c this' w' other :
  send this emailId emailData w = (c, this', w') →
  other ≠ emailId →
  statusMap this' !! other = statusMap this !! other.
Proof.
  rewrite send_step. intros Hsend Hne.
  destruct (decide (emailId ∈ sentEmails this)); [by injection Hsend as _ <- _|].
  cbv zeta in Hsend.
  destruct (isAllowed_at (next_now w) (rateLimiter this)) as [[] rl]; simpl in *.
  - destruct (outcome_exists (providers this) (set_rateLimiter this rl) (after_check w))
      as [o Ho].
    rewrite (outcome_sound _ _ _ o emailId emailData Ho) in Hsend.
    destruct o; simpl in Hsend; injection Hsend as _ <- _; simpl;
      by rewrite ?lookup_insert_ne.
  - injection Hsend as _ <- _. simpl. by rewrite lookup_insert_ne.
Qed.

(** A call on an identity recorded as sent returns the record and changes
    neither the service nor the world. *)
Lemma send_short_circuit p1 p2 mr this emailId p a emailData w :
  service_inv p1 p2 mr this →
  statusMap this !! emailId = Some (Sent p a) →
  send this emailId emailData w = (Returns (Some (Sent p a)), this, w).
Proof.
  intros Hinv Hst. rewrite send_step.
  destruct (decide (emailId ∈ sentEmails this)) as [_|Hnin]; [by rewrite Hst|].
  destruct Hnin. apply (inv_sent _ _ _ _ Hinv). eauto.
Qed.

Lemma sent_preserved p1 p2 mr s s' emailId p a :
  service_inv p1 p2 mr s →
  statusMap s !! emailId = Some (Sent p a) →
  reachable s s' →
  statusMap s' !! emailId = Some (Sent p a).
Proof.
  intros Hinv Hst Hreach. induction Hreach as [|s1 id d w c s2 w' Hreach IH Hsend]; [done|].
  destruct (decide (emailId = id)) as [<-|Hne].
  - rewrite (send_short_circuit p1 p2 mr s1 emailId p a) in Hsend;
      [by injection Hsend as _ <- _|by eapply reachable_inv|done].
  - by rewrite (send_statusMap_other _ _ _ _ _ _ _ emailId Hsend).
Qed.

Lemma emailService_new :
  new_EmailService (Some provider1) (Some provider2) None = Returns emailService.
Proof. reflexivity. Qed.

(** ** Idempotency *)

(** X21. When the calls of [send] are made one after the other, each
    awaited before the next one starts: once the service has recorded
    [Sent] for an identity, the record stays as it is through every later
    call of [send], on this or any other identity; and every later call of [send] on that identity, with any
    payload and in any world, returns exactly that record, leaves the whole
    service state unchanged (so the status map and the rate limiter's
    timestamps are untouched) and leaves the world unchanged (so no provider
    is called, no random number is drawn and the clock is not read). *)
Theorem sent_is_final provider1 provider2 retries s0 s emailId p a :
  new_EmailService provider1 provider2 retries = Returns s0 →
  reachable s0 s →
  statusMap s !! emailId = Some (Sent p a) →
  ∀ s', reachable s s' →
    statusMap s' !! emailId = Some (Sent p a) ∧
    ∀ emailData w,
      send s' emailId emailData w = (Returns (Some (Sent p a)), s', w).
Proof.
  intros Hnew Hreach Hst s' Hreach'.
  pose proof (reachable_inv _ _ _ _ _ (new_EmailService_inv _ _ _ _ Hnew) Hreach) as Hinv.
  pose proof (sent_preserved _ _ _ _ _ _ _ _ Hinv Hst Hreach') as Hst'.
  split; [done|]. intros emailData w.
  eapply send_short_circuit; [|done]. by eapply reachable_inv.
Qed.

(** ** Calls that overlap *)

Lemma triple_eta {A B C} (x : A * B * C) : x = (x.1.1, x.1.2, x.2).
Proof. by destruct x as [[a b] c]. Qed.

Lemma drop_cons_inv {A} (l : list A) :
  ∀ i x rest, drop i l = x :: rest → drop (S i) l = rest.
Proof.
  induction l as [|y l IH]; intros i x rest; [by destruct i|].
  destruct i as [|i]; simpl.
  - intros [= _ <-]. by rewrite drop_0.
  - apply IH.
Qed.

(** Entering the loop at a provider is the first test of its [while]. *)
Lemma enter_providers_loop_test this i prov rest emailId emailData w :
  drop i (providers this) = Some prov :: rest →
  enter_providers this i (Some prov :: rest) emailId emailData w
  = loop_test this i prov emailId emailData 0 100 w.
Proof.
  intros Hdrop. unfold loop_test. simpl.
  by rewrite (drop_cons_inv _ _ _ _ Hdrop).
Qed.

Lemma alone_resume emailId emailData k s w y :
  ends_as emailId emailData (send_resume s emailId emailData k w) y →
  ends_as emailId emailData (Suspends k, s, w) y.
Proof. unfold ends_as. intros Hrun. eapply alone_step; [apply triple_eta|done]. Qed.

(** The [while] loop stepped through its [await]s is [retry_loop], followed
    by the rest of the [for] loop when the budget is used up. *)
Lemma loop_test_alone this emailId emailData i prov rest :
  drop (S i) (providers this) = rest →
  (∀ w, ends_as emailId emailData
          (enter_providers this (S i) rest emailId emailData w)
          (for_providers this rest emailId emailData w)) →
  ∀ n attempts delay w,
    budget this attempts = n →
    ends_as emailId emailData
      (loop_test this i prov emailId emailData attempts delay w)
      (match retry_loop this prov emailId emailData attempts delay w with
       | (Some status, this1, w1) => (Returns (Some status), this1, w1)
       | (None, this1, w1) => for_providers this1 rest emailId emailData w1
       end).
Proof.
  intros Hdrop Hrest n.
  induction n as [|n IH]; intros attempts delay w Hn;
    rewrite retry_loop_step; unfold loop_test at 1; unfold budget in Hn;
    destruct (decide (attempts < maxRetries this)) as [Hlt|Hge];
    try lia; try (rewrite Hdrop; apply Hrest).
  destruct (sendEmail prov emailData w) as [[result|err] w1].
  - apply alone_resume. apply alone_done.
  - apply alone_resume. cbn [send_resume].
    apply alone_resume. cbn [send_resume].
    apply (IH (attempts + 1) (delay * 2) (sleep delay w1)). unfold budget. lia.
Qed.

Lemma enter_providers_alone this emailId emailData :
  ∀ rest i,
    drop i (providers this) = rest →
    ∀ w, ends_as emailId emailData
           (enter_providers this i rest emailId emailData w)
           (for_providers this rest emailId emailData w).
Proof.
  induction rest as [|[prov|] rest IH]; intros i Hdrop w.
  - apply alone_done.
  - rewrite enter_providers_loop_test by done.
    apply (loop_test_alone this emailId emailData i prov rest
             (drop_cons_inv _ _ _ _ Hdrop) (IH (S i) (drop_cons_inv _ _ _ _ Hdrop))
             (budget this 0) 0 100 w eq_refl).
  - apply alone_done.
Qed.

Lemma send_start_alone this emailId emailData w :
  ends_as emailId emailData
    (send_start this emailId emailData w) (send this emailId emailData w).
Proof.
  unfold send_start, send.
  destruct (decide (emailId ∈ sentEmails this)); [apply alone_done|].
  destruct (isAllowed (rateLimiter this) w) as [[[] rl] w1]; simpl.
  - apply (enter_providers_alone (set_rateLimiter this rl) emailId emailData
             (providers this) 0 (drop_0 _) w1).
  - apply alone_done.
Qed.

Lemma runs_alone_unique emailId emailData p s w c1 s1 w1 :
  runs_alone emailId emailData p s w c1 s1 w1 →
  ∀ c2 s2 w2,
    runs_alone emailId emailData p s w c2 s2 w2 → (c1, s1, w1) = (c2, s2, w2).
Proof.
  induction 1 as [c s w|k s w p sa wa c s' w' Hstep _ IH]; intros c2 s2 w2 H2.
  - by inversion H2.
  - inversion H2 as [|k' s'' w'' p' sb wb c' s''' w''' Hstep' Hrun']; subst.
    rewrite Hstep in Hstep'. injection Hstep' as <- <- <-. by apply IH.
Qed.

(** What one step of a call does to the stores of the service. *)
Lemma enter_providers_service this emailId emailData :
  ∀ rest i w,
    let s' := (enter_providers this i rest emailId emailData w).1.2 in
    s' = this ∨ ∃ a, s' = set_status this emailId (Failed a).
Proof.
  induction rest as [|[prov|] rest IH]; intros i w; simpl.
  - right. by eexists.
  - destruct (decide (0 < maxRetries this)); [|apply IH].
    destruct (sendEmail prov emailData w) as [settled w1]. by left.
  - by left.
Qed.

Lemma send_resume_service this emailId emailData k w :
  let s' := (send_resume this emailId emailData k w).1.2 in
  s' = this ∨
  (∃ a, s' = set_status this emailId (Failed a)) ∨
  (∃ p a, s' = set_status (add_sent this emailId) emailId (Sent p a)).
Proof.
  destruct k as [i prov attempts delay [result|err]|i prov attempts delay]; simpl.
  - right. right. by eexists _, _.
  - by left.
  - unfold loop_test. destruct (decide (attempts < maxRetries this)).
    + destruct (sendEmail prov emailData w) as [settled w1]. by left.
    + destruct (enter_providers_service this emailId emailData
                  (drop (S i) (providers this)) (S i) w) as [->|H]; [by left|by right; left].
Qed.

Lemma send_start_service this emailId emailData w :
  let s' := (send_start this emailId emailData w).1.2 in
  ∃ rl a,
    s' = this ∨
    s' = set_rateLimiter this rl ∨
    s' = set_status (set_rateLimiter this rl) emailId (RateLimited a) ∨
    s' = set_status (set_rateLimiter this rl) emailId (Failed a).
Proof.
  unfold send_start.
  destruct (decide (emailId ∈ sentEmails this)); [exists (rateLimiter this), 0; by left|].
  destruct (isAllowed (rateLimiter this) w) as [[[] rl] w1]; simpl.
  - destruct (enter_providers_service (set_rateLimiter this rl) emailId emailData
                (providers this) 0 w1) as [->|[a ->]].
    + exists rl, 0. right. by left.
    + exists rl, a. right. right. by right.
  - exists rl, 0. right. right. by left.
Qed.

Lemma set_status_recorded s emailId status :
  (∀ p a, status ≠ Sent p a) → sent_recorded s →
  sent_recorded (set_status s emailId status).
Proof.
  intros Hns Hrec id p a. simpl.
  destruct (decide (id = emailId)) as [->|Hne].
  - rewrite lookup_insert_eq. intros [= ->]. by destruct (Hns p a).
  - rewrite lookup_insert_ne by done. apply Hrec.
Qed.

Lemma set_sent_recorded s emailId p a :
  sent_recorded s → sent_recorded (set_status (add_sent s emailId) emailId (Sent p a)).
Proof.
  intros Hrec id p' a'. simpl.
  destruct (decide (id = emailId)) as [->|Hne].
  - intros _. apply elem_of_union. left. by apply elem_of_singleton.
  - rewrite lookup_insert_ne by done. intros Hst.
    apply elem_of_union. right. by apply (Hrec id p' a').
Qed.

Lemma send_start_stores s emailId emailData w :
  let s' := (send_start s emailId emailData w).1.2 in
  sentEmails s' = sentEmails s ∧ (sent_recorded s → sent_recorded s').
Proof.
  destruct (send_start_service s emailId emailData w) as (rl & a & [->|[->|[->| ->]]]).
  - done.
  - done.
  - split; [done|]. intros Hrec. by apply set_status_recorded.
  - split; [done|]. intros Hrec. by apply set_status_recorded.
Qed.

Lemma send_resume_stores s emailId emailData k w :
  let s' := (send_resume s emailId emailData k w).1.2 in
  sentEmails s ⊆ sentEmails s' ∧ (sent_recorded s → sent_recorded s').
Proof.
  destruct (send_resume_service s emailId emailData k w) as [->|[[a ->]|(p & a & ->)]].
  - done.
  - split; [done|]. intros Hrec. by apply set_status_recorded.
  - split; [apply union_subseteq_r|]. apply set_sent_recorded.
Qed.

Lemma interleaved_stores s0 s :
  interleaved s0 s →
  sentEmails s0 ⊆ sentEmails s ∧ (sent_recorded s0 → sent_recorded s).
Proof.
  induction 1 as [|s emailId emailData w p s' w' _ [IHs IHr] Hstep
                  |s emailId emailData k w p s' w' _ [IHs IHr] Hstep].
  - done.
  - destruct (send_start_stores s emailId emailData w) as [Hs Hr].
    rewrite Hstep in Hs, Hr. simpl in Hs, Hr. rewrite Hs. split; [done|]. auto.
  - destruct (send_resume_stores s emailId emailData k w) as [Hs Hr].
    rewrite Hstep in Hs, Hr. simpl in Hs, Hr. split; [by etrans|]. auto.
Qed.

Lemma interleaved_trans s0 s s' :
  interleaved s0 s → interleaved s s' → interleaved s0 s'.
Proof.
  intros H0. induction 1; [done|by eapply inter_start|by eapply inter_resume].
Qed.

Lemma runs_alone_interleaved emailId emailData p s w c s' w' :
  runs_alone emailId emailData p s w c s' w' →
  ∀ s0, interleaved s0 s → interleaved s0 s'.
Proof.
  induction 1 as [|k s w p s1 w1 c s' w' Hstep _ IH]; intros s0 H0; [done|].
  apply IH. by eapply inter_resume.
Qed.

(** Calls made one after the other are a special case of calls that
    overlap. *)
Lemma reachable_interleaved s0 s : reachable s0 s → interleaved s0 s.
Proof.
  induction 1 as [|s emailId emailData w c s' w' _ IH Hsend]; [apply inter_refl|].
  pose proof (send_start_alone s emailId emailData w) as Hrun.
  rewrite Hsend in Hrun. unfold ends_as in Hrun. simpl in Hrun.
  apply (runs_alone_interleaved _ _ _ _ _ _ _ _ Hrun).
  eapply inter_start; [exact IH|]. apply triple_eta.
Qed.

Lemma act_interleaved s0 sys a :
  interleaved s0 (sys_service sys) → interleaved s0 (sys_service (act sys a)).
Proof.
  intros H0. destruct a as [emailId emailData|n]; simpl.
  - destruct (send_start _ _ _ _) as [[p s'] w'] eqn:Hstep. simpl.
    by eapply inter_start.
  - destruct (sys_calls sys !! n) as [[emailId emailData [k|c]]|]; [|done..].
    destruct (send_resume _ _ _ _ _) as [[p s'] w'] eqn:Hstep. simpl.
    by eapply inter_resume.
Qed.

Lemma run_schedule_interleaved s0 actions :
  ∀ sys, interleaved s0 (sys_service sys) →
         interleaved s0 (sys_service (run_schedule sys actions)).
Proof.
  induction actions as [|a actions IH]; intros sys H0; [done|].
  simpl. apply IH. by apply act_interleaved.
Qed.

Lemma after_overlap_sent : "email-1" ∈ sentEmails (sys_service after_overlap).
Proof.
  apply (bool_decide_unpack ("email-1" ∈ sentEmails (sys_service after_overlap))).
  vm_compute. exact I.
Qed.

Lemma after_overlap_record :
  statusMap (sys_service after_overlap) !! "email-1" = Some (Failed 6).
Proof. vm_compute. reflexivity. Qed.

Lemma after_overlap_send emailData w :
  send (sys_service after_overlap) "email-1" emailData w
  = (Returns (Some (Failed 6)), sys_service after_overlap, w).
Proof.
  rewrite send_step, decide_True by apply after_overlap_sent.
  by rewrite after_overlap_record.
Qed.

(** C1. The code does not keep a [Sent] record through calls that overlap.
    Two calls of [send] on [email-1] are started one right after the other
    on the driver's service.  The first delivers on its first attempt and
    stores [Sent] by [MockProvider1] with [attempts = 1]; the second, which
    passed the check of line 43 before that, fails on its six attempts and
    stores [Failed] with [attempts = 6] at line 92 over the [Sent] record.
    From then on the status of [email-1] is [Failed], and every later
    [send] on [email-1] returns [Failed] with [attempts = 6]. *)
Theorem overlapping_send_overwrites_sent :
  let s1 := sys_service after_first_delivers in
  let s2 := sys_service after_overlap in
  interleaved emailService s1 ∧
  interleaved s1 s2 ∧
  statusMap s1 !! "email-1" = Some (Sent "MockProvider1" 1) ∧
  call_progress <$> sys_calls after_overlap
  = [Completes (Returns (Some (Sent "MockProvider1" 1)));
     Completes (Returns (Some (Failed 6)))] ∧
  statusMap s2 !! "email-1" = Some (Failed 6) ∧
  getStatus s2 "email-1" = Failed 6 ∧
  ∀ emailData w,
    send s2 "email-1" emailData w = (Returns (Some (Failed 6)), s2, w).
Proof.
  cbv zeta.
  split; [apply run_schedule_interleaved, inter_refl|].
  split; [apply run_schedule_interleaved, inter_refl|].
  split; [vm_compute; reflexivity|].
  split; [vm_compute; reflexivity|].
  split; [apply after_overlap_record|].
  split; [unfold getStatus; by rewrite after_overlap_record|].
  apply after_overlap_send.
Qed.

(** X20. [send] is the call run alone.  A call of [send] that is started
    and then resumed at each of its [await]s, with no step of another call
    in between, comes to an end, and it ends with the completion, the
    service and the world that [send] gives; it has no other end. *)
Theorem send_is_the_call_run_alone this emailId emailData w :
  ends_as emailId emailData
    (send_start this emailId emailData w) (send this emailId emailData w) ∧
  ∀ c s' w',
    runs_alone emailId emailData
      (send_start this emailId emailData w).1.1
      (send_start this emailId emailData w).1.2
      (send_start this emailId emailData w).2 c s' w' ↔
    send this emailId emailData w = (c, s', w').
Proof.
  pose proof (send_start_alone this emailId emailData w) as Hrun.
  split; [done|]. intros c s' w'. split.
  - intros Hrun'. rewrite (triple_eta (send _ _ _ _)).
    by apply (runs_alone_unique _ _ _ _ _ _ _ _ Hrun).
  - intros Hsend. unfold ends_as in Hrun. by rewrite Hsend in Hrun.
Qed.

(** ** Dispatch *)

Lemma all_exhaust_ext n ps :
  ∀ w w', random w = random w' → random_pos w = random_pos w' →
    all_exhaust w n ps → all_exhaust w' n ps.
Proof.
  induction ps as [|p ps IH]; intros w w' Hr Hp; simpl; [done|].
  intros [Hfs Hall]. split.
  - intros j Hj. specialize (Hfs j Hj). unfold draw_fails in *. by rewrite <- Hr, <- Hp.
  - apply (IH (advance w n [])); simpl; [done|by rewrite Hp|done].
Qed.

(** A call that is neither short-circuited nor refused by the rate limiter
    runs the provider loop. *)
Lemma send_dispatch this emailId emailData w :
  emailId ∉ sentEmails this →
  (isAllowed_at (next_now w) (rateLimiter this)).1 = true →
  send this emailId emailData w
  = for_providers (set_rateLimiter this (isAllowed_at (next_now w) (rateLimiter this)).2)
      (providers this) emailId emailData (after_check w).
Proof.
  intros Hnin Hallowed. rewrite send_step.
  destruct (decide (emailId ∈ sentEmails this)); [done|].
  cbv zeta. by rewrite Hallowed.
Qed.

(** A call that is not short-circuited and is refused by the rate limiter. *)
Lemma send_refused this emailId emailData w :
  emailId ∉ sentEmails this →
  (isAllowed_at (next_now w) (rateLimiter this)).1 = false →
  send this emailId emailData w
  = (Returns (Some (RateLimited 0)),
     set_status (set_rateLimiter this (isAllowed_at (next_now w) (rateLimiter this)).2)
       emailId (RateLimited 0),
     after_check w).
Proof.
  intros Hnin Hallowed. rewrite send_step.
  destruct (decide (emailId ∈ sentEmails this)); [done|].
  cbv zeta. by rewrite Hallowed.
Qed.

(** C2. A dispatch that ends in [Sent] reports as [attempts] the 1-indexed
    number of the attempt on which the successful provider succeeded,
    counted from the switch to that provider: the providers before it in the
    array each used their whole budget, the successful provider failed [k]
    times and succeeded on its next draw, the events of the call end with
    those [k] failed attempts and the successful one, and [attempts] is
    [k + 1].  In particular, with [maxRetries = 3], a first provider that
    fails its three attempts and a second provider that fails once and then
    succeeds, the result is [Sent] by the second provider with
    [attempts = 2]. *)
Theorem sent_attempts_count_from_switch :
  (∀ this emailId emailData w pn a this' w',
     emailId ∉ sentEmails this →
     send this emailId emailData w = (Returns (Some (Sent pn a)), this', w') →
     ∃ before prov after k, sent_by this emailData w w' pn a before prov after k)
  ∧
  (∀ this A B emailId emailData w,
     providers this = [Some A; Some B] →
     maxRetries this = 3 →
     emailId ∉ sentEmails this →
     (isAllowed_at (next_now w) (rateLimiter this)).1 = true →
     (∀ j, (j < 3)%nat → draw_fails w A j) →
     draw_fails w B 3 →
     draw_succeeds w B 4 →
     (send this emailId emailData w).1.1 = Returns (Some (Sent (name B) 2))).
Proof.
  split.
  - intros this emailId emailData w pn a this' w' Hnin Hsend.
    destruct (isAllowed_at (next_now w) (rateLimiter this)).1 eqn:Hallowed;
      [|by rewrite send_refused in Hsend].
    rewrite send_dispatch in Hsend by done.
    set (this1 := set_rateLimiter _ _) in Hsend.
    destruct (outcome_exists (providers this) this1 (after_check w)) as [o Ho].
    rewrite (outcome_sound _ _ _ o emailId emailData Ho) in Hsend.
    destruct o as [before prov after k| |]; [|done..].
    simpl in Hsend, Ho. destruct Ho as (Hps & Hall & Hk & Hfs & Hs).
    injection Hsend as <- <- _ <-.
    exists before, prov, after, k. unfold sent_by. simpl.
    repeat split; try done.
    + unfold budget in Hk. simpl in Hk. lia.
    + by apply (all_exhaust_ext _ _ (after_check w)).
    + by rewrite <- app_assoc.
  - intros this A B emailId emailData w Hps Hmax Hnin Hallowed HA HB3 HB4.
    rewrite send_dispatch by done. rewrite Hps.
    set (this1 := set_rateLimiter _ _).
    assert (Hn : budget this1 0 = 3%nat) by (unfold budget; simpl; by rewrite Hmax).
    change [Some A; Some B] with ((Some <$> [A]) ++ [Some B]).
    rewrite (for_providers_success [A] this1 B [] emailId emailData (after_check w) 1).
    + done.
    + rewrite Hn. by split.
    + rewrite Hn. lia.
    + rewrite Hn. intros j Hj. apply draw_fails_advance.
      assert (j = 0%nat) as -> by lia. exact HB3.
    + rewrite Hn. apply draw_succeeds_advance. exact HB4.
Qed.

(** C3. When a call is dispatched, every provider is defined and every
    provider fails on each attempt of its budget, [send] returns and stores
    [Failed] with [attempts = maxRetries * number of providers]. *)
Theorem failed_attempts_is_product this ps emailId emailData w :
  providers this = Some <$> ps →
  emailId ∉ sentEmails this →
  (isAllowed_at (next_now w) (rateLimiter this)).1 = true →
  all_exhaust w (budget this 0) ps →
  ∃ this' w',
    send this emailId emailData w
    = (Returns (Some (Failed (maxRetries this * Z.of_nat (length ps)))), this', w') ∧
    statusMap this' !! emailId
    = Some (Failed (maxRetries this * Z.of_nat (length ps))).
Proof.
  intros Hps Hnin Hallowed Hall.
  rewrite send_dispatch by done. rewrite Hps.
  set (this1 := set_rateLimiter _ _).
  rewrite for_providers_all_fail by (by apply (all_exhaust_ext _ _ w)).
  unfold failure_status. simpl. rewrite Hps, length_fmap.
  eexists _, _. split; [done|]. simpl. by rewrite lookup_insert_eq.
Qed.

(** ** Instances on the driver's service *)

Lemma sent_is_final_witness :
  statusMap after_email_1 !! "email-1" = Some (Sent "MockProvider1" 1) ∧
  send after_email_1 "email-1" duplicate (scripted 5 [])
  = (Returns (Some (Sent "MockProvider1" 1)), after_email_1, scripted 5 []).
Proof.
  assert (H : statusMap after_email_1 !! "email-1" = Some (Sent "MockProvider1" 1))
    by (vm_compute; reflexivity).
  split; [exact H|].
  exact (proj2 (sent_is_final (Some provider1) (Some provider2) None emailService
                  after_email_1 "email-1" "MockProvider1" 1 eq_refl
                  (reach_send_result _ _ _ _ _ (reach_refl _)) H
                  after_email_1 (reach_refl _))
           duplicate (scripted 5 [])).
Defined.

Lemma not_yet_sent emailId : emailId ∉ sentEmails emailService.
Proof. apply not_elem_of_empty. Qed.

Lemma sent_attempts_count_from_switch_witness :
  (∃ before prov after k,
     sent_by emailService hello (scripted 0 [0; 0; 0; 0; 9 # 10]%Q)
       (send emailService "email-2" hello (scripted 0 [0; 0; 0; 0; 9 # 10]%Q)).2
       "MockProvider2" 2 before prov after k) ∧
  (send emailService "email-2" hello (scripted 0 [0; 0; 0; 0; 9 # 10]%Q)).1.1
  = Returns (Some (Sent "MockProvider2" 2)).
Proof.
  split.
  - apply (proj1 sent_attempts_count_from_switch emailService "email-2" hello
             (scripted 0 [0; 0; 0; 0; 9 # 10]%Q) "MockProvider2" 2
             (send emailService "email-2" hello (scripted 0 [0; 0; 0; 0; 9 # 10]%Q)).1.2).
    + apply not_yet_sent.
    + vm_compute. reflexivity.
  - apply (proj2 sent_attempts_count_from_switch emailService provider1 provider2
             "email-2" hello (scripted 0 [0; 0; 0; 0; 9 # 10]%Q)).
    + reflexivity.
    + reflexivity.
    + apply not_yet_sent.
    + vm_compute. reflexivity.
    + intros [|[|[|j]]] Hj; [reflexivity..|lia].
    + reflexivity.
    + reflexivity.
Defined.

Lemma failed_attempts_is_product_witness :
  ∃ this' w',
    send emailService "email-2" hello (scripted 0 [0; 0; 0; 0; 0; 0]%Q)
    = (Returns (Some (Failed (3 * 2))), this', w') ∧
    statusMap this' !! "email-2" = Some (Failed (3 * 2)).
Proof.
  apply (failed_attempts_is_product emailService [provider1; provider2] "email-2"
           hello (scripted 0 [0; 0; 0; 0; 0; 0]%Q)).
  - reflexivity.
  - apply not_yet_sent.
  - vm_compute. reflexivity.
  - change (budget emailService 0) with 3%nat. simpl.
    repeat split; intros [|[|[|j]]] Hj; (reflexivity || lia).
Defined.

(** ** Failover *)

(** C6, as the code has it.  When the first provider fails on every attempt
    of its budget and the second provider succeeds on its first attempt, the
    providers are tried in the order of the array (all the attempts of the
    first, then the single attempt of the second) and the result is [Sent]
    by the second provider with [attempts = 1]: the counter restarts with
    each provider. *)
Theorem failover_restarts_attempts this A B rest emailId emailData w :
  providers this = Some A :: Some B :: rest →
  0 < maxRetries this →
  emailId ∉ sentEmails this →
  (isAllowed_at (next_now w) (rateLimiter this)).1 = true →
  (∀ j, (j < budget this 0)%nat → draw_fails w A j) →
  draw_succeeds w B (budget this 0) →
  ∃ this' w',
    send this emailId emailData w = (Returns (Some (Sent (name B) 1)), this', w') ∧
    trace w' = trace w ++ EvDateNow (next_now w) ::
                 failed_attempts A emailData 100 (budget this 0) ++
                 [EvSendEmail B emailData].
Proof.
  intros Hps Hmax Hnin Hallowed HA HB.
  rewrite send_dispatch by done. rewrite Hps.
  set (this1 := set_rateLimiter _ _).
  change (Some A :: Some B :: rest) with ((Some <$> [A]) ++ Some B :: rest).
  rewrite (for_providers_success [A] this1 B rest emailId emailData (after_check w) 0).
  - eexists _, _. split; [done|]. simpl. by rewrite !app_nil_r, <- app_assoc.
  - by split.
  - unfold budget. simpl. lia.
  - lia.
  - apply draw_succeeds_advance. simpl.
    change (budget this1 0) with (budget this 0).
    by rewrite !Nat.add_0_r.
Qed.

Lemma failover_restarts_attempts_witness :
  ∃ this' w',
    send emailService "email-2" hello (scripted 0 [0; 0; 0; 9 # 10]%Q)
    = (Returns (Some (Sent "MockProvider2" 1)), this', w') ∧
    trace w' = [] ++ EvDateNow 0 ::
                 failed_attempts provider1 hello 100 3 ++
                 [EvSendEmail provider2 hello].
Proof.
  apply (failover_restarts_attempts emailService provider1 provider2 []
           "email-2" hello (scripted 0 [0; 0; 0; 9 # 10]%Q)).
  - reflexivity.
  - reflexivity.
  - apply not_yet_sent.
  - vm_compute. reflexivity.
  - change (budget emailService 0) with 3%nat.
    intros [|[|[|j]]] Hj; (reflexivity || lia).
  - reflexivity.
Defined.

(** C6, as the specification has it, fails on the driver's service: the
    first provider fails its three attempts, the second succeeds at once,
    and the reported [attempts] is [1], not [maxRetries + 1 = 4]. *)
Lemma failover_attempts_counterexample :
  draw_fails (scripted 0 [0; 0; 0; 9 # 10]%Q) provider1 0 ∧
  draw_fails (scripted 0 [0; 0; 0; 9 # 10]%Q) provider1 1 ∧
  draw_fails (scripted 0 [0; 0; 0; 9 # 10]%Q) provider1 2 ∧
  draw_succeeds (scripted 0 [0; 0; 0; 9 # 10]%Q) provider2 3 ∧
  (send emailService "email-2" hello (scripted 0 [0; 0; 0; 9 # 10]%Q)).1.1
  = Returns (Some (Sent (name provider2) 1)) ∧
  (send emailService "email-2" hello (scripted 0 [0; 0; 0; 9 # 10]%Q)).1.1
  ≠ Returns (Some (Sent (name provider2) (maxRetries emailService + 1))).
Proof.
  assert (H : (send emailService "email-2" hello (scripted 0 [0; 0; 0; 9 # 10]%Q)).1.1
              = Returns (Some (Sent (name provider2) 1)))
    by (vm_compute; reflexivity).
  split; [reflexivity|]. split; [reflexivity|]. split; [reflexivity|].
  split; [reflexivity|]. split; [exact H|].
  rewrite H. intros Habs. injection Habs as Habs. simpl in Habs. lia.
Qed.

(** ** Backoff *)

(** The timers of [k] failed attempts double from [delay] on, and there is
    one after each failed attempt, the last included. *)
Lemma failed_attempts_timers prov emailData k :
  ∀ delay i, (i < k)%nat →
    failed_attempts prov emailData delay k !! (2 * i)%nat
    = Some (EvSendEmail prov emailData) ∧
    failed_attempts prov emailData delay k !! (2 * i + 1)%nat
    = Some (EvSetTimeout (delay * 2 ^ Z.of_nat i)).
Proof.
  induction k as [|k IH]; intros delay i Hi; [lia|].
  destruct i as [|i]; simpl.
  - split; [done|]. f_equal. f_equal. lia.
  - destruct (IH (delay * 2) i) as [H1 H2]; [lia|].
    replace (i + S (i + 0))%nat with (S (2 * i)) by lia.
    replace (i + S (i + 0) + 1)%nat with (S (2 * i + 1)) by lia.
    simpl. split; [exact H1|]. simpl in H2. rewrite H2. f_equal. f_equal.
    rewrite Nat2Z.inj_succ, Z.pow_succ_r by lia. lia.
Qed.

(** C4 on the driver's service, with a first provider that fails its three
    attempts and a second provider that succeeds at once: the timers after
    the failed attempts are 100, 200 and 400, and the timer of 400 runs
    after the last attempt of the first provider, right before the first
    attempt of the second provider. *)
Theorem backoff_timer_precedes_failover :
  trace (send emailService "email-2" hello (scripted 0 [0; 0; 0; 9 # 10]%Q)).2
  = [EvDateNow 0;
     EvSendEmail provider1 hello; EvSetTimeout 100;
     EvSendEmail provider1 hello; EvSetTimeout 200;
     EvSendEmail provider1 hello; EvSetTimeout 400;
     EvSendEmail provider2 hello].
Proof. vm_compute. reflexivity. Qed.

(** ** Identities that were not delivered *)

Lemma failed_attempts_head prov emailData delay k :
  (0 < k)%nat →
  ∃ evs, failed_attempts prov emailData delay k = EvSendEmail prov emailData :: evs.
Proof. destruct k; [lia|]. simpl. by eexists. Qed.

(** A loop that is entered calls the provider first. *)
Lemma retry_loop_first_call this prov emailId emailData attempts delay w :
  attempts < maxRetries this →
  ∃ evs, trace (retry_loop this prov emailId emailData attempts delay w).2
         = trace w ++ EvSendEmail prov emailData :: evs.
Proof.
  intros Hlt.
  destruct (retry_loop_cases _ this prov emailId emailData attempts delay w eq_refl)
    as [(k & _ & _ & _ & ->)|[_ ->]]; simpl.
  - destruct k as [|k]; simpl; by eexists.
  - destruct (failed_attempts_head prov emailData delay (budget this attempts))
      as [evs ->]; [unfold budget; lia|]. by eexists.
Qed.

Lemma for_providers_trace this rest emailId emailData w :
  ∃ evs, trace (for_providers this rest emailId emailData w).2 = trace w ++ evs.
Proof.
  destruct (outcome_exists rest this w) as [o Ho].
  rewrite (outcome_sound _ _ _ o emailId emailData Ho).
  destruct o; simpl; by eexists.
Qed.

(** A provider loop that starts on a defined provider with a positive
    budget calls that provider first. *)
Lemma for_providers_first_call this prov rest emailId emailData w :
  0 < maxRetries this →
  ∃ evs, trace (for_providers this (Some prov :: rest) emailId emailData w).2
         = trace w ++ EvSendEmail prov emailData :: evs.
Proof.
  intros Hmax. simpl.
  destruct (retry_loop_first_call this prov emailId emailData 0 100 w Hmax)
    as [evs Hevs].
  destruct (retry_loop this prov emailId emailData 0 100 w) as [[[status|] this1] w1];
    simpl in *; [by eexists|].
  destruct (for_providers_trace this1 rest emailId emailData w1) as [evs' ->].
  rewrite Hevs, <- app_assoc. simpl. by eexists.
Qed.

Lemma send_rateLimiter_trace this emailId emailData w c this' w' :
  emailId ∉ sentEmails this →
  send this emailId emailData w = (c, this', w') →
  rateLimiter this' = (isAllowed_at (next_now w) (rateLimiter this)).2 ∧
  (∃ evs, trace w' = trace w ++ EvDateNow (next_now w) :: evs) ∧
  (∀ status, c = Returns (Some status) → statusMap this' !! emailId = Some status).
Proof.
  intros Hnin Hsend.
  destruct (isAllowed_at (next_now w) (rateLimiter this)).1 eqn:Hallowed.
  - rewrite send_dispatch in Hsend by done.
    set (this1 := set_rateLimiter _ _) in Hsend.
    destruct (outcome_exists (providers this) this1 (after_check w)) as [o Ho].
    rewrite (outcome_sound _ _ _ o emailId emailData Ho) in Hsend.
    destruct o; simpl in Hsend; injection Hsend as <- <- <-; simpl;
      (split; [done|]); (split; [rewrite <- app_assoc; by eexists|]);
      intros status [= <-]; by rewrite ?lookup_insert_eq.
  - rewrite send_refused in Hsend by done. injection Hsend as <- <- <-. simpl.
    split; [done|]. split; [by exists []|].
    intros status [= <-]. by rewrite lookup_insert_eq.
Qed.

(** X22. When the calls of [send] are made one after the other, each
    awaited before the next one starts, and the status stored for an
    identity is [RateLimited] or [Failed], a later [send] on that identity
    is not short-circuited.  It reads the
    clock and runs the admission check of the rate limiter, whose new state
    it keeps; when the check refuses, it returns [RateLimited] with
    [attempts = 0]; when the check admits, it runs the provider loop, and
    if the first provider is defined and [maxRetries] is positive that
    provider is called; and whatever status the call returns replaces the
    status stored before. *)
Theorem unsent_identity_is_retried provider1 provider2 retries s0 s emailId
    stored emailData w c s' w' :
  new_EmailService provider1 provider2 retries = Returns s0 →
  reachable s0 s →
  statusMap s !! emailId = Some stored →
  (∃ a, stored = RateLimited a ∨ stored = Failed a) →
  send s emailId emailData w = (c, s', w') →
  let check := isAllowed_at (next_now w) (rateLimiter s) in
  rateLimiter s' = check.2 ∧
  (∃ evs, trace w' = trace w ++ EvDateNow (next_now w) :: evs ∧
          (check.1 = true → ∀ prov, provider1 = Some prov → 0 < maxRetries s →
             ∃ evs', evs = EvSendEmail prov emailData :: evs')) ∧
  (check.1 = false → c = Returns (Some (RateLimited 0))) ∧
  (check.1 = true →
     (c, s', w') = for_providers (set_rateLimiter s check.2) (providers s)
                     emailId emailData (after_check w)) ∧
  (∀ status, c = Returns (Some status) → statusMap s' !! emailId = Some status).
Proof.
  intros Hnew Hreach Hstored Hkind Hsend check.
  pose proof (reachable_inv _ _ _ _ _ (new_EmailService_inv _ _ _ _ Hnew) Hreach) as Hinv.
  assert (Hnin : emailId ∉ sentEmails s).
  { intros Hin. apply (inv_sent _ _ _ _ Hinv) in Hin as (p & a & Hin).
    destruct Hkind as [a' [-> | ->]]; congruence. }
  destruct (send_rateLimiter_trace _ _ _ _ _ _ _ Hnin Hsend) as (Hrl & [evs Hevs] & Hst).
  split; [done|]. split; [|split; [|split; [|done]]].
  - exists evs. split; [done|]. intros Hallowed prov -> Hmax.
    rewrite send_dispatch in Hsend by done.
    rewrite (inv_providers _ _ _ _ Hinv) in Hsend.
    destruct (for_providers_first_call (set_rateLimiter s check.2) prov [provider2]
                emailId emailData (after_check w) Hmax) as [evs' Hevs'].
    fold check in Hsend. rewrite Hsend in Hevs'. simpl in Hevs'.
    rewrite Hevs, <- app_assoc in Hevs'. apply app_inv_head in Hevs'.
    injection Hevs' as ->. by eexists.
  - intros Hrefused. rewrite send_refused in Hsend by done. by injection Hsend as <- _ _.
  - intros Hallowed. rewrite send_dispatch in Hsend by done. by rewrite <- Hsend.
Qed.

Lemma unsent_identity_is_retried_witness :
  statusMap after_email_2_failed !! "email-2" = Some (Failed 6) ∧
  rateLimiter (send after_email_2_failed "email-2" hello (scripted 10 [(9 # 10)%Q])).1.2
  = (isAllowed_at 10 (rateLimiter after_email_2_failed)).2 ∧
  statusMap (send after_email_2_failed "email-2" hello (scripted 10 [(9 # 10)%Q])).1.2
    !! "email-2" = Some (Sent "MockProvider1" 1).
Proof.
  assert (H : statusMap after_email_2_failed !! "email-2" = Some (Failed 6))
    by (vm_compute; reflexivity).
  split; [exact H|].
  destruct (unsent_identity_is_retried (Some provider1) (Some provider2) None
              emailService after_email_2_failed "email-2" (Failed 6) hello
              (scripted 10 [(9 # 10)%Q]) _ _ _ eq_refl
              (reach_send_result _ _ _ _ _ (reach_refl _)) H
              (ex_intro _ 6 (or_intror eq_refl)) (triple_eta _))
    as (Hrl & _ & _ & _ & Hst).
  split; [exact Hrl|]. apply Hst. vm_compute. reflexivity.
Defined.

Lemma isAllowed_at_room now this :
  Z.of_nat (length (timestamps this)) < limit this →
  (isAllowed_at now this).1 = true.
Proof.
  intros Hroom. unfold isAllowed_at.
  pose proof (length_filter (λ ts, now - ts < intervalMs this) (timestamps this)).
  rewrite bool_decide_eq_true_2 by lia. done.
Qed.

(** C7. The code short-circuits a call on an identity whose stored status
    is [Failed] when that status was stored over a [Sent] record by an
    overlapping call.  After the two overlapping calls on [email-1] of which
    the first delivers and the second fails, the stored status of [email-1]
    is [Failed] with [attempts = 6] and [email-1] is in the set of sent
    identities.  The rate limiter would admit a further call in any world;
    yet every later [send] on [email-1] returns the stored [Failed] status
    at line 43 and leaves the service and the world as they are: it does not
    read the clock, runs no admission check and calls no provider. *)
Theorem failed_identity_is_short_circuited :
  let s := sys_service after_overlap in
  interleaved emailService s ∧
  statusMap s !! "email-1" = Some (Failed 6) ∧
  "email-1" ∈ sentEmails s ∧
  ∀ emailData w,
    (isAllowed (rateLimiter s) w).1.1 = true ∧
    send s "email-1" emailData w = (Returns (Some (Failed 6)), s, w).
Proof.
  cbv zeta.
  split; [apply (interleaved_trans _ (sys_service after_first_delivers));
          apply run_schedule_interleaved, inter_refl|].
  split; [apply after_overlap_record|].
  split; [apply after_overlap_sent|].
  intros emailData w. split; [|apply after_overlap_send].
  assert (Hrl : rateLimiter (sys_service after_overlap) = mkRateLimiter 5 10000 [0; 1])
    by (vm_compute; reflexivity).
  unfold isAllowed, Date_now. cbn [fst snd].
  apply isAllowed_at_room. rewrite Hrl. simpl. lia.
Qed.

(** ** Construction *)

(** C9, as the code has it.  Construction never fails: whatever the
    arguments, also when a provider is missing, the constructor returns a
    service.  The missing provider is detected at send time: a dispatched
    [send] that reaches the empty slot, after the providers before it used
    up their budgets, throws a [TypeError]. *)
Theorem construction_never_fails :
  (∀ provider1 provider2 retries,
     ∃ s0, new_EmailService provider1 provider2 retries = Returns s0) ∧
  (∀ this before after emailId emailData w,
     providers this = (Some <$> before) ++ None :: after →
     emailId ∉ sentEmails this →
     (isAllowed_at (next_now w) (rateLimiter this)).1 = true →
     all_exhaust w (budget this 0) before →
     (send this emailId emailData w).1.1 = Throws undefined_provider).
Proof.
  split.
  - intros. by eexists.
  - intros this before after emailId emailData w Hps Hnin Hallowed Hall.
    rewrite send_dispatch by done. rewrite Hps.
    by rewrite for_providers_undefined by (by apply (all_exhaust_ext _ _ w)).
Qed.

Lemma construction_never_fails_witness :
  (∃ s0, new_EmailService None None None = Returns s0) ∧
  (send no_providers "email-1" hello (scripted 0 [])).1.1 = Throws undefined_provider.
Proof.
  split.
  - apply (proj1 construction_never_fails).
  - apply (proj2 construction_never_fails no_providers [] [None] "email-1" hello
             (scripted 0 [])).
    + reflexivity.
    + apply not_elem_of_empty.
    + vm_compute. reflexivity.
    + exact I.
Defined.

(** C9, as the specification has it, fails: building the service without
    any provider returns a service instead of raising an error, and the
    error appears in the first [send]. *)
Lemma construction_counterexample :
  new_EmailService None None None = Returns no_providers ∧
  new_EmailService None None None ≠ Throws undefined_provider ∧
  (send no_providers "email-1" hello (scripted 0 [])).1.1 = Throws undefined_provider.
Proof.
  split; [reflexivity|]. split; [discriminate|]. vm_compute. reflexivity.
Qed.

(** C10. In every state of a constructed service, whatever the arguments of
    the constructor, the provider array holds exactly the two positional
    arguments, [maxRetries] is the third argument or 3, and the rate limiter
    has limit 5 and interval 10000; hence a [Failed] status returned by
    [send] always has [attempts = maxRetries * 2]. *)
Theorem configuration_is_fixed provider1 provider2 retries s0 s :
  new_EmailService provider1 provider2 retries = Returns s0 →
  reachable s0 s →
  providers s = [provider1; provider2] ∧
  length (providers s) = 2%nat ∧
  maxRetries s = default 3 retries ∧
  limit (rateLimiter s) = 5 ∧
  intervalMs (rateLimiter s) = 10000 ∧
  ∀ emailId emailData w a s' w',
    send s emailId emailData w = (Returns (Some (Failed a)), s', w') →
    a = maxRetries s * 2.
Proof.
  intros Hnew Hreach.
  pose proof (reachable_inv _ _ _ _ _ (new_EmailService_inv _ _ _ _ Hnew) Hreach)
    as [Hps Hmax Hlim Hint Hsent].
  repeat split; try done; [by rewrite Hps|].
  intros emailId emailData w a s' w' Hsend.
  destruct (decide (emailId ∈ sentEmails s)) as [Hin|Hnin].
  - rewrite send_step in Hsend. destruct (decide (emailId ∈ sentEmails s)); [|done].
    apply Hsent in Hin as (p & a' & Hin). rewrite Hin in Hsend. done.
  - destruct (isAllowed_at (next_now w) (rateLimiter s)).1 eqn:Hallowed;
      [|by rewrite send_refused in Hsend].
    rewrite send_dispatch in Hsend by done.
    set (s1 := set_rateLimiter _ _) in Hsend.
    destruct (outcome_exists (providers s) s1 (after_check w)) as [o Ho].
    rewrite (outcome_sound _ _ _ o emailId emailData Ho) in Hsend.
    destruct o; [done| |done]. simpl in Hsend. injection Hsend as <- _ _.
    simpl. by rewrite Hps.
Qed.

Lemma configuration_is_fixed_witness :
  providers after_email_2_failed = [Some provider1; Some provider2] ∧
  length (providers after_email_2_failed) = 2%nat ∧
  maxRetries after_email_2_failed = 3 ∧
  limit (rateLimiter after_email_2_failed) = 5 ∧
  intervalMs (rateLimiter after_email_2_failed) = 10000 ∧
  ∀ emailId emailData w a s' w',
    send after_email_2_failed emailId emailData w = (Returns (Some (Failed a)), s', w') →
    a = maxRetries after_email_2_failed * 2.
Proof.
  exact (configuration_is_fixed (Some provider1) (Some provider2) None emailService
           after_email_2_failed eq_refl (reach_send_result _ _ _ _ _ (reach_refl _))).
Defined.

(** ** The rate limiter *)

Lemma checks_S n this w :
  checks (S n) this w =
  let r := isAllowed_at (next_now w) this in
  let rest := checks n r.2 (after_check w) in
  ((next_now w, r.1) :: rest.1.1, rest.1.2, rest.2).
Proof.
  simpl. unfold isAllowed, after_check, next_now. simpl.
  destruct (isAllowed_at _ this) as [allowed this1]. simpl.
  by destruct (checks n this1 _) as [[log this2] w2].
Qed.

Lemma monotone_clock_after_check w :
  monotone_clock w →
  monotone_clock (after_check w) ∧ next_now w ≤ next_now (after_check w).
Proof.
  unfold monotone_clock, next_now. simpl. intros Hmono. split.
  - intros i j Hi Hij. apply Hmono; lia.
  - apply Hmono; lia.
Qed.

Lemma filter_length_mono {A} (P Q : A → Prop) `{∀ x, Decision (P x)}
    `{∀ x, Decision (Q x)} (l : list A) :
  (∀ x, x ∈ l → P x → Q x) →
  (length (filter P l) ≤ length (filter Q l))%nat.
Proof.
  induction l as [|x l IH]; intros HPQ; [done|].
  assert (IH' : (length (filter P l) ≤ length (filter Q l))%nat).
  { apply IH. intros y Hy. apply HPQ. by right. }
  rewrite !filter_cons.
  destruct (decide (P x)) as [HP|HP].
  - rewrite decide_True by (apply HPQ; [by left|done]). simpl. lia.
  - destruct (decide (Q x)); simpl; lia.
Qed.

Lemma filter_filter_implied {A} (P Q : A → Prop) `{∀ x, Decision (P x)}
    `{∀ x, Decision (Q x)} (l : list A) :
  (∀ x, x ∈ l → P x → Q x) →
  filter P (filter Q l) = filter P l.
Proof.
  induction l as [|x l IH]; intros HPQ; [done|].
  assert (IH' : filter P (filter Q l) = filter P l).
  { apply IH. intros y Hy. apply HPQ. by right. }
  rewrite !filter_cons.
  destruct (decide (Q x)) as [HQ|HQ].
  - rewrite filter_cons. by rewrite IH'.
  - rewrite decide_False; [done|]. intros HP. apply HQ, HPQ; [by left|done].
Qed.

Lemma filter_none {A} (P : A → Prop) `{∀ x, Decision (P x)} (l : list A) :
  (∀ x, x ∈ l → ¬ P x) → filter P l = [].
Proof.
  induction l as [|x l IH]; intros HP; [done|].
  rewrite filter_cons, decide_False by (apply HP; by left).
  apply IH. intros y Hy. apply HP. by right.
Qed.

Section window.
Variables lim interval : Z.
Hypothesis lim_nonneg : 0 ≤ lim.

Lemma limiter_inv_new lo : limiter_inv lim interval (new_RateLimiter lim interval) [] lo.
Proof. split; simpl; try done. intros ts Hts. by apply elem_of_nil in Hts. Qed.

Lemma limiter_inv_step this hist now lo' :
  limiter_inv lim interval this hist now →
  now ≤ lo' →
  let r := isAllowed_at now this in
  limiter_inv lim interval r.2 (hist ++ (if r.1 then [now] else [])) lo'.
Proof.
  intros [Hlim Hint Hret Hpast Hwin Hlen] Hlo.
  assert (Hkept : ∀ now', now ≤ now' →
            filter (λ ts, now' - ts < interval)
              (filter (λ ts, now - ts < interval) (timestamps this))
            = filter (λ ts, now' - ts < interval) hist).
  { intros now' Hnow'. rewrite filter_filter_implied by (intros; lia).
    apply Hret. lia. }
  unfold isAllowed_at. rewrite Hint, Hlim.
  case_bool_decide as Hroom; simpl; split; simpl; try done.
  - intros now' Hnow'. rewrite !filter_app, Hkept by lia. done.
  - intros ts [Hts| ->%list_elem_of_singleton]%elem_of_app; [|done].
    specialize (Hpast ts Hts). lia.
  - intros t. rewrite filter_app, length_app.
    rewrite filter_cons, filter_nil.
    destruct (decide (in_window interval t now)) as [[Hle Hin]|_]; simpl.
    + assert ((length (filter (in_window interval t) hist)
               ≤ length (filter (λ ts, (now - ts < interval)%Z) hist))%nat) as Hsub.
      { apply filter_length_mono. intros ts _ [H1 H2]. lia. }
      rewrite <- (Hret now) in Hsub by lia. lia.
    + specialize (Hwin t). lia.
  - rewrite length_app. simpl. lia.
  - intros now' Hnow'. rewrite app_nil_r. apply Hkept. lia.
  - intros ts Hts. rewrite app_nil_r in Hts. specialize (Hpast ts Hts). lia.
  - intros t. by rewrite app_nil_r.
  - pose proof (length_filter (λ ts, now - ts < interval) (timestamps this)). lia.
Qed.

Lemma checks_inv n :
  ∀ this hist w log this' w',
    monotone_clock w →
    limiter_inv lim interval this hist (next_now w) →
    checks n this w = (log, this', w') →
    ∃ lo, limiter_inv lim interval this' (hist ++ admitted log) lo.
Proof.
  induction n as [|n IH]; intros this hist w log this' w' Hmono Hinv Hchecks.
  - injection Hchecks as <- <- <-. exists (next_now w). by rewrite app_nil_r.
  - rewrite checks_S in Hchecks. cbv zeta in Hchecks.
    destruct (monotone_clock_after_check w Hmono) as [Hmono1 Hle].
    pose proof (limiter_inv_step _ _ _ _ Hinv Hle) as Hinv1. cbv zeta in Hinv1.
    destruct (checks n _ (after_check w)) as [[log1 this1] w1] eqn:Hrest.
    injection Hchecks as <- <- <-.
    destruct (IH _ _ _ _ _ _ Hmono1 Hinv1 Hrest) as [lo Hfinal].
    exists lo. simpl.
    destruct (isAllowed_at (next_now w) this).1; simpl in *;
      by rewrite <- ?app_assoc, ?app_nil_r in Hfinal.
Qed.
End window.

Lemma isAllowed_eq this w :
  isAllowed this w = (isAllowed_at (next_now w) this, after_check w).
Proof. done. Qed.

(** C5. Take a limiter with a non-negative limit, fresh from its
    constructor, and any number of successive calls of [isAllowed] under a
    clock that never goes back.  Then, for every time [t], the admitted
    calls whose times lie in the trailing window of length [intervalMs]
    ending at [t] number at most [limit]; the retained timestamps number at
    most [limit] after the last decision (hence after every decision); and
    each call, in any state, retains exactly the stored timestamps that are
    less than [intervalMs] old, plus the current time when it admits. *)
Theorem rate_limiter_window_bound lim interval n w log this' w' :
  0 ≤ lim →
  monotone_clock w →
  checks n (new_RateLimiter lim interval) w = (log, this', w') →
  (∀ t, Z.of_nat (admitted_in_window interval t log) ≤ lim) ∧
  Z.of_nat (length (timestamps this')) ≤ lim ∧
  (∀ this v ts,
     ts ∈ timestamps (isAllowed this v).1.2 ↔
     (ts ∈ timestamps this ∧ next_now v - ts < intervalMs this) ∨
     ((isAllowed this v).1.1 = true ∧ ts = next_now v)).
Proof.
  intros Hlim Hmono Hchecks.
  destruct (checks_inv lim interval n _ [] _ _ _ _ Hmono
              (limiter_inv_new lim interval Hlim _) Hchecks) as [lo Hinv].
  split; [|split].
  - intros t. apply (li_window _ _ _ _ _ Hinv).
  - apply (li_length _ _ _ _ _ Hinv).
  - intros this v ts. rewrite isAllowed_eq. simpl. unfold isAllowed_at.
    case_bool_decide; simpl.
    + rewrite elem_of_app, list_elem_of_filter, list_elem_of_singleton.
      intuition congruence.
    + rewrite list_elem_of_filter. intuition congruence.
Qed.

Lemma scripted_monotone t0 draws : monotone_clock (scripted t0 draws).
Proof. intros i j _ Hij. simpl. lia. Qed.

Lemma rate_limiter_window_bound_witness :
  (∀ t, Z.of_nat (admitted_in_window 10000 t
                    (checks 6 (new_RateLimiter 5 10000) (scripted 0 [])).1.1) ≤ 5) ∧
  Z.of_nat (length (timestamps (checks 6 (new_RateLimiter 5 10000) (scripted 0 [])).1.2))
  ≤ 5 ∧
  (∀ this v ts,
     ts ∈ timestamps (isAllowed this v).1.2 ↔
     (ts ∈ timestamps this ∧ next_now v - ts < intervalMs this) ∨
     ((isAllowed this v).1.1 = true ∧ ts = next_now v)).
Proof.
  apply (rate_limiter_window_bound 5 10000 6 (scripted 0 []) _ _
           (checks 6 (new_RateLimiter 5 10000) (scripted 0 [])).2).
  - lia.
  - apply scripted_monotone.
  - apply triple_eta.
Defined.

Lemma checks_zero_interval n :
  ∀ this w,
    intervalMs this = 0 →
    0 < limit this →
    monotone_clock w →
    (∀ ts, ts ∈ timestamps this → ts ≤ next_now w) →
    ∀ e, e ∈ (checks n this w).1.1 → e.2 = true.
Proof.
  induction n as [|n IH]; intros this w Hint Hlim Hmono Hpast e He.
  - by apply elem_of_nil in He.
  - rewrite checks_S in He. cbv zeta in He. simpl in He.
    destruct (monotone_clock_after_check w Hmono) as [Hmono1 Hle].
    assert (Hnow : isAllowed_at (next_now w) this
                   = (true, mkRateLimiter (limit this) 0 [next_now w])).
    { unfold isAllowed_at. rewrite Hint.
      rewrite filter_none.
      - simpl. rewrite bool_decide_true by lia. done.
      - intros ts Hts. specialize (Hpast ts Hts). lia. }
    rewrite Hnow in He. simpl in He.
    apply elem_of_cons in He as [->|He]; [done|].
    apply (IH (mkRateLimiter (limit this) 0 [next_now w]) (after_check w));
      simpl; try done.
    intros ts ->%list_elem_of_singleton. done.
Qed.

(** C8. A limiter with [limit = 0] refuses every call, in any state and at
    any time.  A limiter with [intervalMs = 0], called at a time that is not
    before its stored timestamps, keeps none of them, and admits when
    [limit] is positive, after which the current time is its only
    timestamp; so a fresh limiter with [intervalMs = 0] and a positive limit
    admits every call under a clock that never goes back.  Both
    configurations are built and checked by total functions: none of them
    is an error. *)
Theorem degenerate_limiters :
  (∀ this w, limit this = 0 → (isAllowed this w).1.1 = false) ∧
  (∀ this w,
     intervalMs this = 0 →
     (∀ ts, ts ∈ timestamps this → ts ≤ next_now w) →
     filter (λ ts, next_now w - ts < intervalMs this) (timestamps this) = [] ∧
     (0 < limit this →
        isAllowed this w
        = (true, mkRateLimiter (limit this) 0 [next_now w], after_check w))) ∧
  (∀ lim n w,
     0 < lim →
     monotone_clock w →
     ∀ e, e ∈ (checks n (new_RateLimiter lim 0) w).1.1 → e.2 = true).
Proof.
  split; [|split].
  - intros this w Hlim. rewrite isAllowed_eq. simpl. unfold isAllowed_at.
    rewrite Hlim. rewrite bool_decide_false by lia. done.
  - intros this w Hint Hpast.
    assert (Hnil : filter (λ ts, next_now w - ts < intervalMs this) (timestamps this) = []).
    { apply filter_none. intros ts Hts. specialize (Hpast ts Hts). lia. }
    split; [done|]. intros Hlim. rewrite isAllowed_eq. unfold isAllowed_at.
    rewrite Hnil. simpl. rewrite bool_decide_true by lia. by rewrite Hint.
  - intros lim n w Hlim Hmono. apply checks_zero_interval; try done.
    intros ts Hts. by apply elem_of_nil in Hts.
Qed.

Lemma degenerate_limiters_witness :
  (isAllowed (new_RateLimiter 0 10000) (scripted 0 [])).1.1 = false ∧
  (filter (λ ts, next_now (scripted 7 []) - ts < intervalMs (mkRateLimiter 5 0 [3; 4]))
     (timestamps (mkRateLimiter 5 0 [3; 4])) = [] ∧
   (0 < limit (mkRateLimiter 5 0 [3; 4]) →
      isAllowed (mkRateLimiter 5 0 [3; 4]) (scripted 7 [])
      = (true, mkRateLimiter 5 0 [7], after_check (scripted 7 [])))) ∧
  (∀ e, e ∈ (checks 3 (new_RateLimiter 5 0) (scripted 0 [])).1.1 → e.2 = true).
Proof.
  split; [|split].
  - apply (proj1 degenerate_limiters (new_RateLimiter 0 10000) (scripted 0 [])).
    reflexivity.
  - apply (proj1 (proj2 degenerate_limiters) (mkRateLimiter 5 0 [3; 4]) (scripted 7 [])).
    + reflexivity.
    + intros ts Hts. simpl in Hts.
      apply elem_of_cons in Hts as [->|Hts]; [unfold next_now; simpl; lia|].
      apply list_elem_of_singleton in Hts as ->. unfold next_now; simpl; lia.
  - apply (proj2 (proj2 degenerate_limiters) 5 3%nat (scripted 0 [])).
    + lia.
    + apply scripted_monotone.
Defined.


(** * Further properties *)

(** ** Providers at the ends of the failure scale *)

Lemma Qltb_true x y : Qltb x y = true ↔ (x < y)%Q.
Proof.
  unfold Qltb. rewrite negb_true_iff, <- not_true_iff_false, Qle_bool_iff.
  split; [apply Qnot_le_lt|apply Qlt_not_le].
Qed.

Lemma Qltb_false x y : Qltb x y = false ↔ (y <= x)%Q.
Proof. unfold Qltb. by rewrite negb_false_iff, Qle_bool_iff. Qed.

Lemma sure_provider_draw w prov j :
  unit_draws w → (failureRate prov <= 0)%Q → draw_succeeds w prov j.
Proof.
  intros Hw Hrate. apply Qltb_false.
  eapply Qle_trans; [exact Hrate|apply Hw].
Qed.

Lemma hopeless_provider_draw w prov j :
  unit_draws w → (1 <= failureRate prov)%Q → draw_fails w prov j.
Proof.
  intros Hw Hrate. apply Qltb_true.
  eapply Qlt_le_trans; [apply Hw|exact Hrate].
Qed.

Lemma hopeless_all_exhaust w n ps :
  unit_draws w →
  (∀ prov, prov ∈ ps → (1 <= failureRate prov)%Q) →
  all_exhaust w n ps.
Proof.
  revert w. induction ps as [|p ps IH]; intros w Hw Hrates; simpl; [done|]. split.
  - intros j _. apply hopeless_provider_draw; [done|]. apply Hrates. by left.
  - apply IH; [done|]. intros q Hq. apply Hrates. by right.
Qed.

(** X1. With random draws in the range of [Math.random], a provider whose
    [failureRate] is 0 or less delivers on every call and names itself in
    the receipt, and a provider whose [failureRate] is 1 or more throws on
    every call; either way the call takes exactly one draw and does not
    read the clock. *)
Theorem sendEmail_extreme_rates this email w :
  unit_draws w →
  ((failureRate this <= 0)%Q →
     sendEmail this email w
     = (Returns (mkReceipt true (name this)), advance w 1 [EvSendEmail this email])) ∧
  ((1 <= failureRate this)%Q →
     sendEmail this email w
     = (Throws (Error (name this +:+ " failed to send email")),
        advance w 1 [EvSendEmail this email])).
Proof.
  intros Hw. split; intros Hrate.
  - apply sendEmail_succeeds. by apply sure_provider_draw.
  - apply sendEmail_fails. by apply hopeless_provider_draw.
Qed.

Lemma scripted_unit_draws t0 : unit_draws (scripted t0 []).
Proof. intros n. simpl. by destruct n. Qed.

Lemma sendEmail_extreme_rates_witness :
  sendEmail reliable hello (scripted 0 [])
  = (Returns (mkReceipt true "Reliable"),
     advance (scripted 0 []) 1 [EvSendEmail reliable hello]) ∧
  sendEmail hopeless hello (scripted 0 [])
  = (Throws (Error ("Hopeless" +:+ " failed to send email")),
     advance (scripted 0 []) 1 [EvSendEmail hopeless hello]).
Proof.
  split.
  - apply (proj1 (sendEmail_extreme_rates reliable hello (scripted 0 [])
                    (scripted_unit_draws 0))).
    discriminate.
  - apply (proj2 (sendEmail_extreme_rates hopeless hello (scripted 0 [])
                    (scripted_unit_draws 0))).
    discriminate.
Defined.

(** X2. With random draws in the range of [Math.random]: when the first
    provider has [failureRate] 0 or less and [maxRetries] is positive, every
    dispatched [send] returns [Sent] by that provider with [attempts = 1]
    after a single provider call and no timer; when every provider is
    defined and has [failureRate] 1 or more, every dispatched [send]
    returns [Failed]. *)
Theorem send_extreme_rates this emailId emailData w :
  unit_draws w →
  emailId ∉ sentEmails this →
  (isAllowed_at (next_now w) (rateLimiter this)).1 = true →
  (∀ prov rest,
     providers this = Some prov :: rest →
     0 < maxRetries this →
     (failureRate prov <= 0)%Q →
     ∃ this' w',
       send this emailId emailData w = (Returns (Some (Sent (name prov) 1)), this', w') ∧
       trace w' = trace w ++ [EvDateNow (next_now w); EvSendEmail prov emailData]) ∧
  (∀ ps,
     providers this = Some <$> ps →
     (∀ prov, prov ∈ ps → (1 <= failureRate prov)%Q) →
     (send this emailId emailData w).1.1
     = Returns (Some (Failed (maxRetries this * Z.of_nat (length ps))))).
Proof.
  intros Hw Hnin Hallowed. split.
  - intros prov rest Hps Hmax Hrate.
    rewrite send_dispatch by done. rewrite Hps.
    set (this1 := set_rateLimiter _ _).
    change (Some prov :: rest) with ((Some <$> []) ++ Some prov :: rest).
    rewrite (for_providers_success [] this1 prov rest emailId emailData
               (after_check w) 0).
    + eexists _, _. split; [done|]. simpl. by rewrite <- app_assoc.
    + done.
    + unfold budget. simpl. lia.
    + lia.
    + by apply sure_provider_draw.
  - intros ps Hps Hrates.
    rewrite send_dispatch by done. rewrite Hps.
    set (this1 := set_rateLimiter _ _).
    rewrite for_providers_all_fail.
    + unfold failure_status. simpl. by rewrite Hps, length_fmap.
    + by apply hopeless_all_exhaust.
Qed.

Lemma send_extreme_rates_witness :
  (∃ this' w',
     send reliable_service "email-1" hello (scripted 0 [])
     = (Returns (Some (Sent "Reliable" 1)), this', w') ∧
     trace w' = [] ++ [EvDateNow 0; EvSendEmail reliable hello]) ∧
  (send hopeless_service "email-1" hello (scripted 0 [])).1.1
  = Returns (Some (Failed (3 * 2))).
Proof.
  split.
  - apply (proj1 (send_extreme_rates reliable_service "email-1" hello (scripted 0 [])
                    (scripted_unit_draws 0) (not_elem_of_empty _) eq_refl)
             reliable [Some hopeless]).
    + reflexivity.
    + reflexivity.
    + discriminate.
  - apply (proj2 (send_extreme_rates hopeless_service "email-1" hello (scripted 0 [])
                    (scripted_unit_draws 0) (not_elem_of_empty _) eq_refl)
             [hopeless; hopeless]).
    + reflexivity.
    + intros prov Hprov. apply elem_of_cons in Hprov as [->|Hprov]; [discriminate|].
      apply list_elem_of_singleton in Hprov as ->. discriminate.
Defined.

(** ** The rate limiter over a run of calls *)

Lemma checks_length n : ∀ this w, length (checks n this w).1.1 = n.
Proof.
  induction n as [|n IH]; intros this w; [done|].
  rewrite checks_S. simpl. by rewrite IH.
Qed.

Lemma checks_world n :
  ∀ this w,
    (checks n this w).2
    = mkWorld (clock w) (clock_pos w + n) (random w) (random_pos w)
        (trace w ++ ((λ i, EvDateNow (clock w (clock_pos w + i))) <$> seq 0 n)).
Proof.
  induction n as [|n IH]; intros this w.
  - simpl. destruct w; simpl. by rewrite Nat.add_0_r, app_nil_r.
  - rewrite checks_S. cbv zeta. simpl snd. rewrite IH. simpl.
    rewrite <- app_assoc. simpl. unfold next_now. rewrite Nat.add_0_r.
    rewrite <- Nat.add_succ_r. do 3 f_equal.
    rewrite <- fmap_S_seq, <- list_fmap_compose.
    apply list_fmap_ext. intros i x _. simpl. by rewrite Nat.add_succ_r.
Qed.

Lemma checks_times n :
  ∀ this w, (checks n this w).1.1.*1 = (λ i, clock w (clock_pos w + i)%nat) <$> seq 0 n.
Proof.
  induction n as [|n IH]; intros this w; [done|].
  rewrite checks_S. cbv zeta. simpl. rewrite IH. simpl.
  unfold next_now. rewrite Nat.add_0_r. f_equal.
  rewrite <- fmap_S_seq, <- list_fmap_compose.
  apply list_fmap_ext. intros i x _. simpl. f_equal. lia.
Qed.

Lemma filter_all {A} (P : A → Prop) `{∀ x, Decision (P x)} (l : list A) :
  (∀ x, x ∈ l → P x) → filter P l = l.
Proof.
  induction l as [|x l IH]; intros HP; [done|].
  rewrite filter_cons, decide_True by (apply HP; by left).
  f_equal. apply IH. intros y Hy. apply HP. by right.
Qed.

Lemma clock_within_after_check interval n w :
  clock_within interval (S n) w → clock_within interval n (after_check w).
Proof. intros Hclock i j Hi Hj. simpl in *. apply Hclock; lia. Qed.

(** A call that finds every stored timestamp young. *)
Lemma isAllowed_at_all_young now this :
  (∀ ts, ts ∈ timestamps this → now - ts < intervalMs this) →
  isAllowed_at now this
  = (bool_decide (Z.of_nat (length (timestamps this)) < limit this),
     mkRateLimiter (limit this) (intervalMs this)
       (if bool_decide (Z.of_nat (length (timestamps this)) < limit this)
        then timestamps this ++ [now] else timestamps this)).
Proof.
  intros Hyoung. unfold isAllowed_at. rewrite filter_all by done.
  by case_bool_decide.
Qed.

(** While every stored timestamp stays young, the limiter counts up to its
    limit and then refuses. *)
Lemma checks_burst n :
  ∀ this w,
    clock_within (intervalMs this) n w →
    (∀ ts j, ts ∈ timestamps this → (clock_pos w ≤ j < clock_pos w + n)%nat →
             clock w j - ts < intervalMs this) →
    (checks n this w).1.1.*2
    = (λ i, bool_decide (Z.of_nat (length (timestamps this) + i) < limit this))
        <$> seq 0 n.
Proof.
  induction n as [|n IH]; intros this w Hclock Hyoung; [done|].
  rewrite checks_S. cbv zeta.
  rewrite isAllowed_at_all_young by (intros ts Hts; apply Hyoung; [done|lia]).
  destruct (bool_decide (Z.of_nat (length (timestamps this)) < limit this)) eqn:Hroom;
    simpl; rewrite Nat.add_0_r, Hroom; f_equal; rewrite IH; simpl.
  - rewrite <- fmap_S_seq, <- list_fmap_compose. apply list_fmap_ext.
    intros i x _. simpl. rewrite length_app. simpl.
    by replace (length (timestamps this) + 1 + x)%nat
      with (length (timestamps this) + S x)%nat by lia.
  - by apply clock_within_after_check.
  - intros ts j [Hts| ->%list_elem_of_singleton]%elem_of_app Hj.
    + apply Hyoung; [done|lia].
    + apply Hclock; lia.
  - rewrite <- fmap_S_seq, <- list_fmap_compose. apply list_fmap_ext.
    intros i x _. simpl. apply bool_decide_eq_false in Hroom.
    rewrite !bool_decide_false by lia. done.
  - by apply clock_within_after_check.
  - intros ts j Hts Hj. apply Hyoung; [done|lia].
Qed.

(** X3. A fresh limiter called [n] times in a row, while any two of the [n]
    readings of the clock are less than [intervalMs] apart, admits the
    calls numbered below [limit] and refuses all the others: a burst gets
    exactly [limit] admissions. *)
Theorem limiter_burst lim interval n w :
  clock_within interval n w →
  (checks n (new_RateLimiter lim interval) w).1.1.*2
  = (λ i, bool_decide (Z.of_nat i < lim)) <$> seq 0 n.
Proof.
  intros Hclock. rewrite checks_burst; simpl; [done|done|].
  intros ts j Hts. by apply elem_of_nil in Hts.
Qed.

Lemma scripted_within interval n t0 draws :
  Z.of_nat n ≤ interval → clock_within interval n (scripted t0 draws).
Proof. intros Hn i j Hi Hj. simpl in *. lia. Qed.

Lemma limiter_burst_witness :
  (checks 6 (new_RateLimiter 5 10000) (scripted 0 [])).1.1.*2
  = (λ i, bool_decide (Z.of_nat i < 5)) <$> seq 0 6.
Proof.
  apply (limiter_burst 5 10000 6 (scripted 0 [])).
  apply scripted_within. lia.
Defined.

Lemma checks_config n :
  ∀ this w,
    limit (checks n this w).1.2 = limit this ∧
    intervalMs (checks n this w).1.2 = intervalMs this.
Proof.
  induction n as [|n IH]; intros this w; [done|].
  rewrite checks_S. cbv zeta. simpl.
  destruct (IH (isAllowed_at (next_now w) this).2 (after_check w)) as [-> ->].
  apply isAllowed_at_config.
Qed.

Lemma isAllowed_at_timestamps now this ts :
  ts ∈ timestamps (isAllowed_at now this).2 → ts ∈ timestamps this ∨ ts = now.
Proof.
  unfold isAllowed_at. case_bool_decide; simpl.
  - rewrite elem_of_app, list_elem_of_filter, list_elem_of_singleton. tauto.
  - rewrite list_elem_of_filter. tauto.
Qed.

(** Every timestamp a limiter holds after a run was there before the run or
    is one of the readings of the run. *)
Lemma checks_timestamps n :
  ∀ this w ts,
    ts ∈ timestamps (checks n this w).1.2 →
    ts ∈ timestamps this ∨ ∃ i, (i < n)%nat ∧ ts = clock w (clock_pos w + i).
Proof.
  induction n as [|n IH]; intros this w ts; [by left|].
  rewrite checks_S. cbv zeta. simpl. intros Hts.
  apply IH in Hts as [Hts|(i & Hi & ->)].
  - apply isAllowed_at_timestamps in Hts as [Hts| ->]; [by left|].
    right. exists 0%nat. split; [lia|]. unfold next_now. by rewrite Nat.add_0_r.
  - right. exists (S i). split; [lia|]. simpl. by rewrite Nat.add_succ_r.
Qed.

Lemma isAllowed_at_retained now this :
  timestamps (isAllowed_at now this).2
  = filter (λ ts, now - ts < intervalMs this) (timestamps this)
    ++ (if (isAllowed_at now this).1 then [now] else []).
Proof. unfold isAllowed_at. case_bool_decide; simpl; by rewrite ?app_nil_r. Qed.

(** The limiter and the reference limiter decide alike as long as, from the
    next reading on, they agree on which timestamps are young. *)
Lemma checks_history n :
  ∀ this hist w,
    monotone_clock w →
    (∀ now, next_now w ≤ now →
       filter (λ ts, now - ts < intervalMs this) (timestamps this)
       = filter (λ ts, now - ts < intervalMs this) hist) →
    (checks n this w).1.1.*2
    = history_checks (limit this) (intervalMs this) hist (checks n this w).1.1.*1.
Proof.
  induction n as [|n IH]; intros this hist w Hmono Hagree; [done|].
  rewrite checks_S. cbv zeta. simpl.
  destruct (monotone_clock_after_check w Hmono) as [Hmono1 Hle].
  assert (Hkept : ∀ now', next_now w ≤ now' →
            filter (λ ts, now' - ts < intervalMs this)
              (filter (λ ts, next_now w - ts < intervalMs this) (timestamps this))
            = filter (λ ts, now' - ts < intervalMs this) hist).
  { intros now' Hnow'. rewrite filter_filter_implied by (intros; lia).
    by apply Hagree. }
  assert (Hdec : (isAllowed_at (next_now w) this).1
                 = bool_decide (Z.of_nat (length (filter
                     (λ ts, next_now w - ts < intervalMs this) hist)) < limit this)).
  { unfold isAllowed_at. rewrite (Hagree (next_now w)) by lia. by case_bool_decide. }
  rewrite <- Hdec. f_equal.
  destruct (isAllowed_at_config (next_now w) this) as [Hlim Hint].
  rewrite <- Hlim, <- Hint. apply IH; [done|].
  rewrite Hint. intros now' Hnow'. rewrite isAllowed_at_retained.
  destruct (isAllowed_at (next_now w) this).1.
  - rewrite !filter_app, Hkept by lia. done.
  - rewrite app_nil_r. apply Hkept. lia.
Qed.

(** X4. Under a clock that never goes back, forgetting old timestamps is
    invisible: a fresh limiter takes, on any run of calls, exactly the
    decisions of the reference limiter that keeps the time of every call it
    admitted and counts those less than [intervalMs] old. *)
Theorem pruning_is_unobservable lim interval n w :
  monotone_clock w →
  (checks n (new_RateLimiter lim interval) w).1.1.*2
  = history_checks lim interval [] (checks n (new_RateLimiter lim interval) w).1.1.*1.
Proof.
  intros Hmono. by apply (checks_history n (new_RateLimiter lim interval) [] w).
Qed.

Lemma pruning_is_unobservable_witness :
  (checks 7 (new_RateLimiter 5 3) (scripted 0 [])).1.1.*2
  = history_checks 5 3 [] (checks 7 (new_RateLimiter 5 3) (scripted 0 [])).1.1.*1.
Proof.
  apply (pruning_is_unobservable 5 3 7 (scripted 0 [])), scripted_monotone.
Defined.

(** X5. After any run of calls, a limiter with a positive limit recovers as
    soon as every reading of the run is at least [intervalMs] old: the next
    call is admitted and its time becomes the only stored timestamp. *)
Theorem limiter_recovers lim interval n w :
  0 < lim →
  (∀ i, (i < n)%nat →
        interval ≤ clock w (clock_pos w + n) - clock w (clock_pos w + i)) →
  isAllowed (checks n (new_RateLimiter lim interval) w).1.2
    (checks n (new_RateLimiter lim interval) w).2
  = (true, mkRateLimiter lim interval [clock w (clock_pos w + n)%nat],
     after_check (checks n (new_RateLimiter lim interval) w).2).
Proof.
  intros Hlim Hold. rewrite isAllowed_eq. f_equal.
  destruct (checks_config n (new_RateLimiter lim interval) w) as [Hl Hi].
  simpl in Hl, Hi.
  assert (Hnow : next_now (checks n (new_RateLimiter lim interval) w).2
                 = clock w (clock_pos w + n)%nat) by (by rewrite checks_world).
  rewrite Hnow. unfold isAllowed_at. rewrite Hl, Hi.
  rewrite filter_none.
  - simpl. by rewrite bool_decide_true by lia.
  - intros ts Hts.
    apply checks_timestamps in Hts as [Hts|(i & Hi' & ->)];
      [by apply elem_of_nil in Hts|].
    specialize (Hold i Hi'). lia.
Qed.

Lemma limiter_recovers_witness :
  isAllowed (checks 6 (new_RateLimiter 5 0) (scripted 0 [])).1.2
    (checks 6 (new_RateLimiter 5 0) (scripted 0 [])).2
  = (true, mkRateLimiter 5 0 [clock (scripted 0 []) (clock_pos (scripted 0 []) + 6)%nat],
     after_check (checks 6 (new_RateLimiter 5 0) (scripted 0 [])).2).
Proof.
  apply (limiter_recovers 5 0 6 (scripted 0 [])).
  - lia.
  - intros i Hi. simpl. lia.
Defined.

(** ** What [send] records *)

(** The three paths of [send]. *)
Lemma send_cases this emailId emailData w :
  let check := isAllowed_at (next_now w) (rateLimiter this) in
  let this1 := set_rateLimiter this check.2 in
  (emailId ∈ sentEmails this ∧
   send this emailId emailData w = (Returns (statusMap this !! emailId), this, w)) ∨
  ((emailId ∉ sentEmails this) ∧ check.1 = false ∧
   send this emailId emailData w
   = (Returns (Some (RateLimited 0)), set_status this1 emailId (RateLimited 0),
      after_check w)) ∨
  ((emailId ∉ sentEmails this) ∧ check.1 = true ∧
   ∃ o : loop_outcome this1 (providers this) (after_check w),
     outcome_holds o ∧
     send this emailId emailData w = outcome_result o emailId emailData).
Proof.
  intros check this1.
  destruct (decide (emailId ∈ sentEmails this)) as [Hin|Hnin].
  - left. split; [done|]. rewrite send_step. by rewrite decide_True.
  - right. destruct check.1 eqn:Hallowed.
    + right. split; [done|]. split; [done|].
      destruct (outcome_exists (providers this) this1 (after_check w)) as [o Ho].
      exists o. split; [done|]. rewrite send_dispatch by done.
      by apply outcome_sound.
    + left. split; [done|]. split; [done|]. by apply send_refused.
Qed.

Lemma reachable_called s0 s : reachable s0 s ↔ ∃ ids, called s0 ids s.
Proof.
  split.
  - induction 1 as [|s emailId emailData w c s' w' _ [ids IH] Hsend].
    + exists []. constructor.
    + exists (emailId :: ids). by econstructor.
  - intros [ids Hcalled]. induction Hcalled; [constructor|]. by econstructor.
Qed.

(** An identity that was never passed to [send] has no record. *)
Lemma unseen_no_record provider1 provider2 retries s0 ids s emailId :
  new_EmailService provider1 provider2 retries = Returns s0 →
  called s0 ids s →
  emailId ∉ ids →
  statusMap s !! emailId = None.
Proof.
  intros Hnew Hcalled Hid.
  induction Hcalled as [|ids s id d w c s' w' _ IH Hsend].
  - injection Hnew as <-. apply lookup_empty.
  - apply not_elem_of_cons in Hid as [Hne Hid].
    rewrite (send_statusMap_other _ _ _ _ _ _ _ emailId Hsend Hne). by apply IH.
Qed.

(** X6. [getStatus] is [Unknown] exactly for the identities without a
    record, and a constructed service has a record only for identities that
    were passed to [send]: for an identity never passed to [send],
    [getStatus] returns [Unknown] and the identity is not marked as sent. *)
Theorem unseen_identity_is_unknown provider1 provider2 retries s0 ids s emailId :
  new_EmailService provider1 provider2 retries = Returns s0 →
  called s0 ids s →
  emailId ∉ ids →
  getStatus s emailId = Unknown ∧
  statusMap s !! emailId = None ∧
  emailId ∉ sentEmails s.
Proof.
  intros Hnew Hcalled Hid.
  pose proof (unseen_no_record _ _ _ _ _ _ _ Hnew Hcalled Hid) as Hnone.
  split; [|split; [done|]].
  - unfold getStatus. by rewrite Hnone.
  - intros Hin.
    assert (Hinv : service_inv provider1 provider2 (default 3 retries) s).
    { eapply reachable_inv; [by apply new_EmailService_inv|].
      apply reachable_called. by exists ids. }
    apply (inv_sent _ _ _ _ Hinv) in Hin as (p & a & Hin). congruence.
Qed.

Lemma unseen_identity_is_unknown_witness :
  getStatus after_email_1 "email-100" = Unknown ∧
  statusMap after_email_1 !! "email-100" = None ∧
  "email-100" ∉ sentEmails after_email_1.
Proof.
  apply (unseen_identity_is_unknown (Some provider1) (Some provider2) None
           emailService ["email-1"] after_email_1 "email-100" eq_refl).
  - apply (called_send emailService [] emailService "email-1" hello
             (scripted 0 [(9 # 10)%Q]) _ _ _ (called_nil _) (triple_eta _)).
  - intros Hin. apply list_elem_of_singleton in Hin. discriminate.
Defined.

(** What one call of [send] does to the fields of the service: the
    configuration stays, and the status map either stays as it is or gets
    the returned status, which is well formed, at the identity of the
    call. *)
Lemma send_fields this emailId emailData w c this' w' :
  send this emailId emailData w = (c, this', w') →
  providers this' = providers this ∧
  maxRetries this' = maxRetries this ∧
  (statusMap this' = statusMap this ∨
   ∃ status, statusMap this' = <[emailId := status]> (statusMap this) ∧
             c = Returns (Some status) ∧ well_formed this status).
Proof.
  intros Hsend.
  destruct (send_cases this emailId emailData w)
    as [[_ E]|[(_ & _ & E)|(_ & _ & o & Ho & E)]];
    rewrite E in Hsend; clear E.
  - injection Hsend as <- <- <-. by repeat split; [left].
  - injection Hsend as <- <- <-. repeat split; try done.
    right. by exists (RateLimited 0).
  - destruct o as [before prov after k|ps|before after];
      simpl in Hsend, Ho; injection Hsend as <- <- <-; (repeat split; try done).
    + right. eexists. repeat split; try done.
      * lia.
      * destruct Ho as (_ & _ & Hk & _). unfold budget in Hk. simpl in Hk. lia.
      * destruct Ho as (-> & _). exists prov. split; [|done].
        apply elem_of_app. right. by left.
    + right. by eexists.
    + by left.
Qed.

(** A [send] that returns gives back the record it leaves. *)
Lemma send_returns_record provider1 provider2 retries s0 s emailId emailData
    w v s' w' :
  new_EmailService provider1 provider2 retries = Returns s0 →
  reachable s0 s →
  send s emailId emailData w = (Returns v, s', w') →
  ∃ status, v = Some status ∧ statusMap s' !! emailId = Some status ∧
            status ≠ Unknown.
Proof.
  intros Hnew Hreach Hsend.
  pose proof (reachable_inv _ _ _ _ _ (new_EmailService_inv _ _ _ _ Hnew) Hreach) as Hinv.
  destruct (send_cases s emailId emailData w)
    as [[Hin E]|[(_ & _ & E)|(_ & _ & o & Ho & E)]];
    rewrite E in Hsend; clear E.
  - injection Hsend as <- <- <-.
    apply (inv_sent _ _ _ _ Hinv) in Hin as (p & a & Hin). rewrite Hin. by eexists.
  - injection Hsend as <- <- <-. eexists. simpl. by rewrite lookup_insert_eq.
  - destruct o; simpl in Hsend; [| |done];
      injection Hsend as <- <- <-; eexists; simpl; by rewrite lookup_insert_eq.
Qed.

(** X7. On a constructed service, a [send] that returns never returns
    [undefined] nor [Unknown]: it returns a status, and a [getStatus] on the
    same identity right after it gives that same status. *)
Theorem send_then_getStatus provider1 provider2 retries s0 s emailId emailData
    w v s' w' :
  new_EmailService provider1 provider2 retries = Returns s0 →
  reachable s0 s →
  send s emailId emailData w = (Returns v, s', w') →
  v = Some (getStatus s' emailId) ∧ getStatus s' emailId ≠ Unknown.
Proof.
  intros Hnew Hreach Hsend.
  destruct (send_returns_record _ _ _ _ _ _ _ _ _ _ _ Hnew Hreach Hsend)
    as (status & -> & Hst & Hknown).
  unfold getStatus. rewrite Hst. by split.
Qed.

Lemma send_then_getStatus_witness :
  Some (Sent "MockProvider1" 1) = Some (getStatus after_email_1 "email-1") ∧
  getStatus after_email_1 "email-1" ≠ Unknown.
Proof.
  apply (send_then_getStatus (Some provider1) (Some provider2) None emailService
           emailService "email-1" hello (scripted 0 [(9 # 10)%Q])
           (Some (Sent "MockProvider1" 1)) after_email_1
           (send emailService "email-1" hello (scripted 0 [(9 # 10)%Q])).2
           eq_refl (reach_refl _)).
  vm_compute. reflexivity.
Defined.

(** [send] throws only on a service with a missing provider. *)
Lemma send_throws_missing this emailId emailData w e this' w' :
  send this emailId emailData w = (Throws e, this', w') →
  None ∈ providers this.
Proof.
  intros Hsend.
  destruct (send_cases this emailId emailData w)
    as [[_ E]|[(_ & _ & E)|(_ & _ & o & Ho & E)]];
    rewrite E in Hsend; clear E; [done..|].
  destruct o as [| |before after]; simpl in Hsend, Ho; [done..|].
  destruct Ho as [-> _]. apply elem_of_app. right. by left.
Qed.

(** X8. The only exception [send] raises is the [TypeError] of a missing
    provider.  It is raised only in a call that was not short-circuited and
    was admitted by the rate limiter; it leaves the status map and the set
    of sent identities as they were, so the identity gets no record, but the
    admission it used stays counted in the rate limiter. *)
Theorem send_throws_only_for_missing_provider this emailId emailData w e this' w' :
  send this emailId emailData w = (Throws e, this', w') →
  e = undefined_provider ∧
  None ∈ providers this ∧
  (emailId ∉ sentEmails this) ∧
  (isAllowed_at (next_now w) (rateLimiter this)).1 = true ∧
  rateLimiter this' = (isAllowed_at (next_now w) (rateLimiter this)).2 ∧
  next_now w ∈ timestamps (rateLimiter this') ∧
  statusMap this' = statusMap this ∧
  sentEmails this' = sentEmails this.
Proof.
  intros Hsend.
  destruct (send_cases this emailId emailData w)
    as [[_ E]|[(_ & _ & E)|(Hnin & Hallowed & o & Ho & E)]];
    rewrite E in Hsend; clear E; [done..|].
  destruct o as [| |before after]; simpl in Hsend, Ho; [done..|].
  injection Hsend as <- <- <-. destruct Ho as [Hps _]. simpl.
  repeat split; try done.
  - rewrite Hps. apply elem_of_app. right. by left.
  - rewrite isAllowed_at_retained, Hallowed. apply elem_of_app. right. by left.
Qed.

Lemma send_throws_only_for_missing_provider_witness :
  undefined_provider = undefined_provider ∧
  None ∈ providers no_providers ∧
  ("email-1" ∉ sentEmails no_providers) ∧
  (isAllowed_at (next_now (scripted 0 [])) (rateLimiter no_providers)).1 = true ∧
  rateLimiter (send no_providers "email-1" hello (scripted 0 [])).1.2
  = (isAllowed_at (next_now (scripted 0 [])) (rateLimiter no_providers)).2 ∧
  next_now (scripted 0 [])
  ∈ timestamps (rateLimiter (send no_providers "email-1" hello (scripted 0 [])).1.2) ∧
  statusMap (send no_providers "email-1" hello (scripted 0 [])).1.2
  = statusMap no_providers ∧
  sentEmails (send no_providers "email-1" hello (scripted 0 [])).1.2
  = sentEmails no_providers.
Proof.
  apply (send_throws_only_for_missing_provider no_providers "email-1" hello
           (scripted 0 []) undefined_provider _
           (send no_providers "email-1" hello (scripted 0 [])).2).
  vm_compute. reflexivity.
Defined.

Lemma send_sentEmails this emailId emailData w :
  sentEmails this ⊆ sentEmails (send this emailId emailData w).1.2 ∧
  sentEmails (send this emailId emailData w).1.2 ⊆ {[emailId]} ∪ sentEmails this.
Proof.
  destruct (send_cases this emailId emailData w)
    as [[_ ->]|[(_ & _ & ->)|(_ & _ & o & _ & ->)]]; simpl.
  - split; [reflexivity|apply union_subseteq_r].
  - split; [reflexivity|apply union_subseteq_r].
  - destruct o; simpl.
    + split; [apply union_subseteq_r|reflexivity].
    + split; [reflexivity|apply union_subseteq_r].
    + split; [reflexivity|apply union_subseteq_r].
Qed.

(** The limiter after a call is the old one or the one the admission check
    left. *)
Lemma send_rateLimiter this emailId emailData w :
  rateLimiter (send this emailId emailData w).1.2 = rateLimiter this ∨
  rateLimiter (send this emailId emailData w).1.2
  = (isAllowed_at (next_now w) (rateLimiter this)).2.
Proof.
  destruct (send_cases this emailId emailData w)
    as [[_ ->]|[(_ & _ & ->)|(_ & _ & o & _ & ->)]]; [by left|by right|].
  right. by destruct o.
Qed.

Lemma send_limiter_config this emailId emailData w :
  limit (rateLimiter (send this emailId emailData w).1.2) = limit (rateLimiter this) ∧
  intervalMs (rateLimiter (send this emailId emailData w).1.2)
  = intervalMs (rateLimiter this).
Proof.
  destruct (send_rateLimiter this emailId emailData w) as [-> | ->]; [done|].
  apply isAllowed_at_config.
Qed.

(** X9. A call of [send] on one identity leaves every other identity as it
    was: [getStatus] on another identity gives the same answer as before.
    It never removes an identity from the set of sent identities and adds at
    most its own; and it never changes the providers, [maxRetries] or the
    configuration of the rate limiter. *)
Theorem send_frame this emailId emailData w :
  let this' := (send this emailId emailData w).1.2 in
  (∀ other, other ≠ emailId → getStatus this' other = getStatus this other) ∧
  sentEmails this ⊆ sentEmails this' ∧
  sentEmails this' ⊆ {[emailId]} ∪ sentEmails this ∧
  providers this' = providers this ∧
  maxRetries this' = maxRetries this ∧
  limit (rateLimiter this') = limit (rateLimiter this) ∧
  intervalMs (rateLimiter this') = intervalMs (rateLimiter this).
Proof.
  intros this'. subst this'.
  destruct (send_sentEmails this emailId emailData w) as [Hsub1 Hsub2].
  destruct (send_limiter_config this emailId emailData w) as [Hlim Hint].
  pose proof (triple_eta (send this emailId emailData w)) as Hsend.
  destruct (send_fields _ _ _ _ _ _ _ Hsend) as (Hps & Hmax & _).
  split; [|done].
  intros other Hne. unfold getStatus.
  by rewrite (send_statusMap_other _ _ _ _ _ _ _ other Hsend Hne).
Qed.

Lemma well_formed_ext this this' status :
  providers this' = providers this →
  maxRetries this' = maxRetries this →
  well_formed this status → well_formed this' status.
Proof. intros Hps Hmax. destruct status; simpl; by rewrite ?Hps, ?Hmax. Qed.

(** X10. Every status a constructed service holds is well formed: a [Sent]
    record names one of the two providers and has [attempts] between 1 and
    [maxRetries], a [RateLimited] record has [attempts = 0], a [Failed]
    record has [attempts = maxRetries * 2], and [Unknown] is never
    stored. *)
Theorem stored_statuses_well_formed provider1 provider2 retries s0 s emailId status :
  new_EmailService provider1 provider2 retries = Returns s0 →
  reachable s0 s →
  statusMap s !! emailId = Some status →
  well_formed s status ∧ length (providers s) = 2%nat.
Proof.
  intros Hnew Hreach Hst.
  pose proof (reachable_inv _ _ _ _ _ (new_EmailService_inv _ _ _ _ Hnew) Hreach) as Hinv.
  split; [|by rewrite (inv_providers _ _ _ _ Hinv)].
  clear Hinv. revert emailId status Hst.
  induction Hreach as [|s id d w c s' w' _ IH Hsend]; intros emailId status Hst.
  - injection Hnew as <-. cbn [statusMap] in Hst. by rewrite lookup_empty in Hst.
  - destruct (send_fields _ _ _ _ _ _ _ Hsend) as (Hps & Hmax & [Hsame|(st & Hins & _ & Hwf)]).
    + apply (well_formed_ext s); [done..|]. apply (IH emailId). by rewrite <- Hsame.
    + apply (well_formed_ext s); [done..|]. rewrite Hins in Hst.
      destruct (decide (id = emailId)) as [->|Hne].
      * rewrite lookup_insert_eq in Hst. by injection Hst as <-.
      * rewrite lookup_insert_ne in Hst by done. by apply (IH emailId).
Qed.

Lemma stored_statuses_well_formed_witness :
  well_formed after_email_2_failed (Failed 6) ∧
  length (providers after_email_2_failed) = 2%nat.
Proof.
  apply (stored_statuses_well_formed (Some provider1) (Some provider2) None
           emailService after_email_2_failed "email-2" (Failed 6) eq_refl
           (reach_send_result _ _ _ _ _ (reach_refl _))).
  vm_compute. reflexivity.
Defined.

(** ** What one call of [send] costs *)

Lemma provider_calls_app evs1 evs2 :
  provider_calls (evs1 ++ evs2) = (provider_calls evs1 + provider_calls evs2)%nat.
Proof.
  induction evs1 as [|e evs1 IH]; simpl; [done|].
  fold (provider_calls (evs1 ++ evs2)). fold (provider_calls evs1).
  rewrite IH. by destruct e.
Qed.

Lemma total_delay_app evs1 evs2 :
  total_delay (evs1 ++ evs2) = total_delay evs1 + total_delay evs2.
Proof.
  induction evs1 as [|e evs1 IH]; simpl; [done|].
  fold (total_delay (evs1 ++ evs2)). fold (total_delay evs1).
  rewrite IH. destruct e; lia.
Qed.

Lemma failed_attempts_calls prov emailData k :
  ∀ delay, provider_calls (failed_attempts prov emailData delay k) = k.
Proof.
  induction k as [|k IH]; intros delay; [done|].
  simpl. change (provider_calls (EvSendEmail prov emailData :: EvSetTimeout delay ::
                   failed_attempts prov emailData (delay * 2) k))
    with (S (provider_calls (failed_attempts prov emailData (delay * 2) k))).
  by rewrite IH.
Qed.

Lemma failed_attempts_delay prov emailData k :
  ∀ delay,
    total_delay (failed_attempts prov emailData delay k) = delay * (2 ^ Z.of_nat k - 1).
Proof.
  induction k as [|k IH]; intros delay; [simpl; lia|].
  simpl failed_attempts.
  change (total_delay (EvSendEmail prov emailData :: EvSetTimeout delay ::
                   failed_attempts prov emailData (delay * 2) k))
    with (delay + total_delay (failed_attempts prov emailData (delay * 2) k)).
  rewrite IH, Nat2Z.inj_succ, Z.pow_succ_r by lia. lia.
Qed.

Lemma exhausted_events_calls emailData n ps :
  provider_calls (exhausted_events emailData n ps) = (length ps * n)%nat.
Proof.
  induction ps as [|p ps IH]; [done|].
  simpl. by rewrite provider_calls_app, failed_attempts_calls, IH.
Qed.

Lemma exhausted_events_delay emailData n ps :
  total_delay (exhausted_events emailData n ps) = Z.of_nat (length ps) * exhaust_delay n.
Proof.
  induction ps as [|p ps IH]; [done|].
  simpl exhausted_events. rewrite total_delay_app, failed_attempts_delay, IH.
  unfold exhaust_delay. simpl length. lia.
Qed.

Lemma exhaust_delay_mono k n : (k ≤ n)%nat → 0 ≤ exhaust_delay k ≤ exhaust_delay n.
Proof.
  intros Hkn. unfold exhaust_delay.
  assert (1 ≤ 2 ^ Z.of_nat k) by (apply (Z.pow_le_mono_r 2 0); lia).
  assert (2 ^ Z.of_nat k ≤ 2 ^ Z.of_nat n) by (apply Z.pow_le_mono_r; lia).
  lia.
Qed.

(** The totals of one call. *)
Lemma totals_of_send this emailId emailData w :
  let w' := (send this emailId emailData w).2 in
  ∃ evs,
    trace w' = trace w ++ evs ∧
    clock w' = clock w ∧
    random w' = random w ∧
    (clock_pos w ≤ clock_pos w' ≤ clock_pos w + 1)%nat ∧
    random_pos w' = (random_pos w + provider_calls evs)%nat ∧
    (provider_calls evs ≤ length (providers this) * budget this 0)%nat ∧
    0 ≤ total_delay evs ≤ Z.of_nat (length (providers this)) * exhaust_delay (budget this 0).
Proof.
  intros w'. subst w'.
  pose proof (exhaust_delay_mono 0 (budget this 0) ltac:(lia)) as [_ Hpos].
  change (exhaust_delay 0) with 0 in Hpos.
  destruct (send_cases this emailId emailData w)
    as [[_ ->]|[(_ & _ & ->)|(_ & _ & o & Ho & ->)]]; simpl.
  - exists []. rewrite app_nil_r. simpl. repeat split; try done; try lia.
  - exists [EvDateNow (next_now w)]. simpl. repeat split; try done; try lia.
  - set (n := budget this 0) in *.
    set (E := exhaust_delay n) in *.
    destruct o as [before prov after k|ps|before after]; simpl in Ho |- *;
      change (budget (set_rateLimiter this
                (isAllowed_at (next_now w) (rateLimiter this)).2) 0) with n in *;
      rewrite <- app_assoc; eexists; (split; [reflexivity|]);
      simpl; rewrite ?provider_calls_app, ?total_delay_app,
               ?exhausted_events_calls, ?exhausted_events_delay,
               ?failed_attempts_calls, ?failed_attempts_delay; simpl; fold E.
    + destruct Ho as (-> & _ & Hk & _).
      rewrite length_app, length_fmap. simpl.
      pose proof (exhaust_delay_mono k n ltac:(lia)) as Hkn.
      fold E in Hkn. unfold exhaust_delay in Hkn.
      repeat split; try done; try lia; try nia.
    + destruct Ho as (-> & _). rewrite length_fmap.
      repeat split; try done; try lia; try nia.
    + destruct Ho as (-> & _). rewrite length_app, length_fmap. simpl.
      repeat split; try done; try lia; try nia.
Qed.

Lemma failed_attempts_block prov emailData k :
  ∀ delay, block_of prov emailData (failed_attempts prov emailData delay k).
Proof.
  induction k as [|k IH]; intros delay; simpl; [constructor|].
  constructor; [by left|]. constructor; [right; by eexists|]. apply IH.
Qed.

Lemma failed_attempts_last prov emailData k :
  ∀ delay,
    last (failed_attempts prov emailData delay (S k))
    = Some (EvSetTimeout (delay * 2 ^ Z.of_nat k)).
Proof.
  induction k as [|k IH]; intros delay.
  - simpl. do 2 f_equal. lia.
  - change (failed_attempts prov emailData delay (S (S k)))
      with (EvSendEmail prov emailData :: EvSetTimeout delay ::
            failed_attempts prov emailData (delay * 2) (S k)).
    rewrite !last_cons, IH. do 2 f_equal.
    rewrite Nat2Z.inj_succ, Z.pow_succ_r by lia. lia.
Qed.

Lemma exhausted_events_concat emailData n ps :
  exhausted_events emailData n ps
  = concat ((λ p, failed_attempts p emailData 100 n) <$> ps).
Proof. induction ps as [|p ps IH]; simpl; [done|by rewrite IH]. Qed.

Lemma failed_attempts_spent n emailData prov :
  spent n emailData prov (failed_attempts prov emailData 100 n).
Proof.
  split; [done|]. split; [apply failed_attempts_block|].
  split; [apply failed_attempts_calls|].
  split; [by rewrite failed_attempts_delay|].
  intros Hn. destruct n as [|n]; [lia|]. rewrite failed_attempts_last.
  by replace (Z.of_nat (S n) - 1) with (Z.of_nat n) by lia.
Qed.

Lemma exhausted_spent n emailData ps :
  Forall2 (spent n emailData) ps ((λ p, failed_attempts p emailData 100 n) <$> ps).
Proof.
  induction ps as [|p ps IH]; simpl; constructor; [apply failed_attempts_spent|done].
Qed.

Lemma spent_within n emailData prov block :
  spent n emailData prov block → within_budget n emailData (Some prov) block.
Proof.
  intros (_ & Hblock & Hcalls & Hdelay & _). exists prov.
  split; [done|]. split; [done|]. split; [lia|].
  rewrite Hdelay. pose proof (exhaust_delay_mono 0 n ltac:(lia)) as [_ Hpos].
  change (exhaust_delay 0) with 0 in Hpos. lia.
Qed.

Lemma exhausted_within n emailData ps :
  Forall2 (within_budget n emailData) (Some <$> ps)
    ((λ p, failed_attempts p emailData 100 n) <$> ps).
Proof.
  induction ps as [|p ps IH]; simpl; constructor;
    [apply spent_within, failed_attempts_spent|done].
Qed.

Lemma success_within n emailData prov k :
  (k < n)%nat →
  within_budget n emailData (Some prov)
    (failed_attempts prov emailData 100 k ++ [EvSendEmail prov emailData]).
Proof.
  intros Hk. exists prov. split; [done|]. split.
  { apply Forall_app. split; [apply failed_attempts_block|].
    constructor; [by left|constructor]. }
  rewrite provider_calls_app, total_delay_app, failed_attempts_calls,
    failed_attempts_delay.
  change (provider_calls [EvSendEmail prov emailData]) with 1%nat.
  change (total_delay [EvSendEmail prov emailData]) with 0.
  split; [lia|].
  pose proof (exhaust_delay_mono k n ltac:(lia)) as Hkn.
  unfold exhaust_delay in *. lia.
Qed.

(** The events of one call, provider by provider. *)
Lemma send_blocks this emailId emailData w :
  ∃ pre blocks,
    trace (send this emailId emailData w).2 = trace w ++ pre ++ concat blocks ∧
    (pre = [] ∨ pre = [EvDateNow (next_now w)]) ∧
    (length blocks ≤ length (providers this))%nat ∧
    Forall2 (within_budget (budget this 0) emailData)
      (take (length blocks) (providers this)) blocks.
Proof.
  destruct (send_cases this emailId emailData w)
    as [[_ ->]|[(_ & _ & ->)|(_ & _ & o & Ho & ->)]].
  - exists [], []. simpl. rewrite app_nil_r.
    split; [done|]. split; [by left|]. split; [lia|]. rewrite take_0. constructor.
  - exists [EvDateNow (next_now w)], []. simpl.
    split; [done|]. split; [by right|]. split; [lia|]. rewrite take_0. constructor.
  - exists [EvDateNow (next_now w)].
    set (n := budget this 0) in *.
    set (fa := λ p, failed_attempts p emailData 100 n).
    destruct o as [before prov after k|ps|before after]; simpl in Ho |- *;
      change (budget (set_rateLimiter this
                (isAllowed_at (next_now w) (rateLimiter this)).2) 0) with n in *.
    + destruct Ho as (Hps & _ & Hk & _).
      exists ((fa <$> before)
              ++ [failed_attempts prov emailData 100 k ++ [EvSendEmail prov emailData]]).
      rewrite concat_app, exhausted_events_concat. simpl concat. rewrite app_nil_r.
      rewrite <- app_assoc. split; [done|]. split; [by right|].
      rewrite Hps, !length_app, !length_fmap. simpl length. split; [lia|].
      rewrite (cons_middle (Some prov)), app_assoc.
      rewrite take_app_length' by (rewrite !length_app, !length_fmap; simpl; lia).
      apply Forall2_app; [apply exhausted_within|].
      constructor; [by apply success_within|constructor].
    + destruct Ho as (Hps & _). exists (fa <$> ps).
      rewrite exhausted_events_concat, <- app_assoc.
      split; [done|]. split; [by right|].
      rewrite Hps, !length_fmap. split; [lia|].
      rewrite <- (length_fmap Some ps), take_ge by lia.
      apply exhausted_within.
    + destruct Ho as (Hps & _). exists (fa <$> before).
      rewrite exhausted_events_concat, <- app_assoc.
      split; [done|]. split; [by right|].
      rewrite Hps, length_app, !length_fmap. split; [lia|].
      rewrite take_app_length' by (by rewrite length_fmap).
      apply exhausted_within.
Qed.

(** X11. What a single call of [send] can cost, whatever its outcome.  It
    only appends events to the trace; it reads the clock at most once; it
    draws exactly one random number per provider call.  Its events are at
    most one reading of the clock followed by one block of events for each
    entry of the provider array it tried, in the order of the array: the
    block of an entry holds calls of that provider only, at most [maxRetries] of
    them (none when [maxRetries] is negative), and timers that add up to at
    most [100 * (2 ^ maxRetries - 1)].  So, over the whole call, the
    provider calls are at most [maxRetries] times the number of providers
    and the timers at most [100 * (2 ^ maxRetries - 1)] times that
    number. *)
Theorem send_cost this emailId emailData w :
  let w' := (send this emailId emailData w).2 in
  ∃ evs,
    trace w' = trace w ++ evs ∧
    clock w' = clock w ∧
    random w' = random w ∧
    (clock_pos w ≤ clock_pos w' ≤ clock_pos w + 1)%nat ∧
    random_pos w' = (random_pos w + provider_calls evs)%nat ∧
    (provider_calls evs ≤ length (providers this) * budget this 0)%nat ∧
    0 ≤ total_delay evs ≤ Z.of_nat (length (providers this)) * exhaust_delay (budget this 0) ∧
    ∃ pre blocks,
      evs = pre ++ concat blocks ∧
      (pre = [] ∨ pre = [EvDateNow (next_now w)]) ∧
      (length blocks ≤ length (providers this))%nat ∧
      Forall2 (within_budget (budget this 0) emailData)
        (take (length blocks) (providers this)) blocks.
Proof.
  intros w'. subst w'.
  destruct (totals_of_send this emailId emailData w)
    as (evs & Htrace & Hclock & Hrandom & Hpos & Hdraws & Hcalls & Hdelay).
  destruct (send_blocks this emailId emailData w)
    as (pre & blocks & Htrace' & Hpre & Hlen & Hblocks).
  exists evs. do 7 (split; [done|]).
  exists pre, blocks. split; [|done].
  rewrite Htrace in Htrace'. by apply app_inv_head in Htrace'.
Qed.

(** X12. What a complete failure costs.  When a call is dispatched, every
    provider is defined and every provider fails on each attempt of its
    budget, the events of the call after the reading of the clock are one
    block for each provider, in the order of the provider array.  The block
    of a provider is [maxRetries] times a call of that provider followed by
    a timer: it holds exactly [maxRetries] provider calls, all of that
    provider, its timers add up to exactly [100 * (2 ^ maxRetries - 1)], and
    when [maxRetries] is positive it ends with the timer of
    [100 * 2 ^ (maxRetries - 1)] that follows the last attempt.  So the call
    makes [maxRetries] provider calls per provider and waits
    [100 * (2 ^ maxRetries - 1)] per provider. *)
Theorem failed_dispatch_cost this ps emailId emailData w :
  providers this = Some <$> ps →
  emailId ∉ sentEmails this →
  (isAllowed_at (next_now w) (rateLimiter this)).1 = true →
  all_exhaust w (budget this 0) ps →
  ∃ blocks,
    trace (send this emailId emailData w).2
    = trace w ++ EvDateNow (next_now w) :: concat blocks ∧
    Forall2 (spent (budget this 0) emailData) ps blocks ∧
    provider_calls (concat blocks) = (length ps * budget this 0)%nat ∧
    total_delay (concat blocks) = Z.of_nat (length ps) * exhaust_delay (budget this 0).
Proof.
  intros Hps Hnin Hallowed Hall.
  rewrite send_dispatch by done. rewrite Hps.
  rewrite for_providers_all_fail by (by apply (all_exhaust_ext _ _ w)).
  simpl. change (budget (set_rateLimiter this _) 0) with (budget this 0).
  exists ((λ p, failed_attempts p emailData 100 (budget this 0)) <$> ps).
  rewrite <- exhausted_events_concat, <- app_assoc. split; [done|].
  split; [apply exhausted_spent|].
  by rewrite exhausted_events_calls, exhausted_events_delay.
Qed.

Lemma failed_dispatch_cost_witness :
  ∃ blocks,
    trace (send emailService "email-2" hello (scripted 0 [0; 0; 0; 0; 0; 0]%Q)).2
    = [] ++ EvDateNow 0 :: concat blocks ∧
    Forall2 (spent 3 hello) [provider1; provider2] blocks ∧
    provider_calls (concat blocks) = (2 * 3)%nat ∧
    total_delay (concat blocks) = 2 * exhaust_delay 3.
Proof.
  apply (failed_dispatch_cost emailService [provider1; provider2] "email-2" hello
           (scripted 0 [0; 0; 0; 0; 0; 0]%Q)).
  - reflexivity.
  - apply not_yet_sent.
  - vm_compute. reflexivity.
  - change (budget emailService 0) with 3%nat. simpl.
    repeat split; intros [|[|[|j]]] Hj; (reflexivity || lia).
Defined.

Lemma failed_attempts_length prov emailData k :
  ∀ delay, length (failed_attempts prov emailData delay k) = (2 * k)%nat.
Proof. induction k as [|k IH]; intros delay; simpl; [done|]. rewrite IH. lia. Qed.

Lemma failed_attempts_prefix prov emailData m k :
  (m ≤ k)%nat →
  ∀ delay, ∃ tail,
    failed_attempts prov emailData delay k
    = failed_attempts prov emailData delay m ++ tail.
Proof.
  revert k. induction m as [|m IH]; intros k Hmk delay; [by eexists|].
  destruct k as [|k]; [lia|]. simpl.
  destruct (IH k ltac:(lia) (delay * 2)) as [tail ->]. by eexists.
Qed.

(** The events of a loop whose first [m] draws fail start with [m] failed
    attempts. *)
Lemma retry_loop_failed_prefix this prov emailId emailData attempts delay w m :
  (m ≤ budget this attempts)%nat →
  (∀ j, (j < m)%nat → draw_fails w prov j) →
  ∃ tail,
    trace (retry_loop this prov emailId emailData attempts delay w).2
    = trace w ++ failed_attempts prov emailData delay m ++ tail.
Proof.
  intros Hm Hfs.
  destruct (retry_loop_cases _ this prov emailId emailData attempts delay w eq_refl)
    as [(k & Hk & _ & Hs & ->)|[_ ->]]; simpl.
  - assert (m ≤ k)%nat as Hmk.
    { destruct (decide (m ≤ k)%nat) as [|Hgt]; [done|].
      destruct (draw_fails_succeeds w prov k); [apply Hfs; lia|done]. }
    destruct (failed_attempts_prefix prov emailData m k Hmk delay) as [tail ->].
    rewrite <- app_assoc. by eexists.
  - destruct (failed_attempts_prefix prov emailData m _ Hm delay) as [tail ->].
    by eexists.
Qed.

Lemma for_providers_failed_prefix this prov rest emailId emailData w m :
  (m ≤ budget this 0)%nat →
  (∀ j, (j < m)%nat → draw_fails w prov j) →
  ∃ tail,
    trace (for_providers this (Some prov :: rest) emailId emailData w).2
    = trace w ++ failed_attempts prov emailData 100 m ++ tail.
Proof.
  intros Hm Hfs. simpl.
  destruct (retry_loop_failed_prefix this prov emailId emailData 0 100 w m Hm Hfs)
    as [tail Htail].
  destruct (retry_loop this prov emailId emailData 0 100 w) as [[[status|] this1] w1];
    simpl in *; [by eexists|].
  destruct (for_providers_trace this1 rest emailId emailData w1) as [evs' ->].
  rewrite Htail, <- !app_assoc. by eexists.
Qed.

(** X13. The backoff schedule.  In a dispatched [send], while the first
    provider fails its first [m] attempts ([m] up to [maxRetries]), the
    events after the clock reading alternate a call of that provider and a
    timer, and the timer after failure number [i] (from 0) is
    [100 * 2 ^ i]: the waits double from 100, and there is one after every
    failed attempt. *)
Theorem backoff_doubles this prov rest emailId emailData w m :
  providers this = Some prov :: rest →
  emailId ∉ sentEmails this →
  (isAllowed_at (next_now w) (rateLimiter this)).1 = true →
  (m ≤ budget this 0)%nat →
  (∀ j, (j < m)%nat → draw_fails w prov j) →
  ∃ evs,
    trace (send this emailId emailData w).2 = trace w ++ EvDateNow (next_now w) :: evs ∧
    ∀ i, (i < m)%nat →
      evs !! (2 * i)%nat = Some (EvSendEmail prov emailData) ∧
      evs !! (2 * i + 1)%nat = Some (EvSetTimeout (100 * 2 ^ Z.of_nat i)).
Proof.
  intros Hps Hnin Hallowed Hm Hfs.
  rewrite send_dispatch by done. rewrite Hps.
  set (this1 := set_rateLimiter _ _).
  destruct (for_providers_failed_prefix this1 prov rest emailId emailData
              (after_check w) m Hm Hfs) as [tail ->].
  simpl. rewrite <- app_assoc. eexists. split; [done|].
  intros i Hi.
  destruct (failed_attempts_timers prov emailData m 100 i Hi) as [H1 H2].
  rewrite !lookup_app_l by (rewrite failed_attempts_length; lia). done.
Qed.

Lemma backoff_doubles_witness :
  ∃ evs,
    trace (send emailService "email-2" hello (scripted 0 [0; 0; 0; 9 # 10]%Q)).2
    = [] ++ EvDateNow 0 :: evs ∧
    ∀ i, (i < 3)%nat →
      evs !! (2 * i)%nat = Some (EvSendEmail provider1 hello) ∧
      evs !! (2 * i + 1)%nat = Some (EvSetTimeout (100 * 2 ^ Z.of_nat i)).
Proof.
  apply (backoff_doubles emailService provider1 [Some provider2] "email-2" hello
           (scripted 0 [0; 0; 0; 9 # 10]%Q) 3).
  - reflexivity.
  - apply not_yet_sent.
  - vm_compute. reflexivity.
  - change (budget emailService 0) with 3%nat. lia.
  - intros [|[|[|j]]] Hj; (reflexivity || lia).
Defined.

(** X14. With [maxRetries] zero or negative nothing is ever delivered: a
    dispatched [send] on a service whose providers are all defined calls no
    provider, draws no random number, waits on no timer, and returns and
    stores [Failed] with [attempts = maxRetries * number of providers],
    which is then zero or negative. *)
Theorem no_retries_no_delivery this ps emailId emailData w :
  maxRetries this ≤ 0 →
  providers this = Some <$> ps →
  emailId ∉ sentEmails this →
  (isAllowed_at (next_now w) (rateLimiter this)).1 = true →
  send this emailId emailData w
  = (Returns (Some (Failed (maxRetries this * Z.of_nat (length ps)))),
     set_status (set_rateLimiter this (isAllowed_at (next_now w) (rateLimiter this)).2)
       emailId (Failed (maxRetries this * Z.of_nat (length ps))),
     after_check w).
Proof.
  intros Hmax Hps Hnin Hallowed.
  rewrite send_dispatch by done. rewrite Hps.
  set (this1 := set_rateLimiter _ _).
  assert (Hn : budget this1 0 = 0%nat) by (unfold budget; simpl; lia).
  rewrite for_providers_all_fail.
  - unfold failure_status. simpl providers. rewrite Hps, length_fmap, Hn.
    rewrite Nat.mul_0_r.
    assert (Hev : exhausted_events emailData 0 ps = []).
    { clear. induction ps as [|p ps IH]; [done|]. simpl. exact IH. }
    by rewrite Hev, advance_0_nil.
  - rewrite Hn. clear. generalize (after_check w).
    induction ps as [|p ps IH]; intros v; simpl; [done|].
    split; [lia|apply IH].
Qed.

(** ** Bursts of calls through the service *)

(** A call that is not short-circuited reads the clock exactly once. *)
Lemma send_reads_clock this emailId emailData w :
  emailId ∉ sentEmails this →
  clock (send this emailId emailData w).2 = clock w ∧
  clock_pos (send this emailId emailData w).2 = S (clock_pos w).
Proof.
  intros Hnin.
  destruct (send_cases this emailId emailData w)
    as [[Hin _]|[(_ & _ & ->)|(_ & _ & o & _ & ->)]]; [done|done|].
  by destruct o.
Qed.

(** An admitted call on a service without a missing provider returns [Sent]
    or [Failed]. *)
Lemma send_admitted_result this emailId emailData w :
  emailId ∉ sentEmails this →
  (isAllowed_at (next_now w) (rateLimiter this)).1 = true →
  None ∉ providers this →
  ∃ status,
    (send this emailId emailData w).1.1 = Returns (Some status) ∧
    ((∃ p a, status = Sent p a) ∨ (∃ a, status = Failed a)).
Proof.
  intros Hnin Hallowed Hdef.
  destruct (send_cases this emailId emailData w)
    as [[Hin _]|[(_ & Hrefused & _)|(_ & _ & o & Ho & ->)]]; [done|congruence|].
  destruct o as [before prov after k|ps|before after]; simpl in *.
  - eexists. split; [done|]. left. by eexists _, _.
  - eexists. split; [done|]. right. by eexists.
  - destruct Ho as [Hps _]. destruct Hdef. rewrite Hps.
    apply elem_of_app. right. by left.
Qed.

Lemma burst_step w0 n s w emailId emailData :
  burst_inv w0 s w →
  clock_within 10000 n w0 →
  (clock_pos w < clock_pos w0 + n)%nat →
  limit (rateLimiter s) = 5 →
  intervalMs (rateLimiter s) = 10000 →
  emailId ∉ sentEmails s →
  burst_inv w0 (send s emailId emailData w).1.2 (send s emailId emailData w).2 ∧
  (isAllowed_at (next_now w) (rateLimiter s)).1
  = bool_decide (clock_pos w - clock_pos w0 < 5)%nat.
Proof.
  intros (Hclock & Hpos & Hts & Hlen) Hwithin Hn Hlim Hint Hnin.
  destruct (send_reads_clock s emailId emailData w Hnin) as [Hclock' Hpos'].
  pose proof (triple_eta (send s emailId emailData w)) as Hsend.
  destruct (send_rateLimiter_trace _ _ _ _ _ _ _ Hnin Hsend) as (Hrl & _ & _).
  assert (Hnow : next_now w = clock w0 (clock_pos w))
    by (unfold next_now; by rewrite Hclock).
  assert (Hyoung : ∀ ts, ts ∈ timestamps (rateLimiter s) →
            next_now w - ts < intervalMs (rateLimiter s)).
  { intros ts (i & Hi & ->)%Hts. rewrite Hnow, Hint. apply Hwithin; lia. }
  rewrite (isAllowed_at_all_young _ _ Hyoung) in Hrl |- *. simpl.
  rewrite Hlim, Hlen in Hrl |- *.
  assert (Hdec : bool_decide
                   (Z.of_nat (5 `min` (clock_pos w - clock_pos w0)) < 5)
                 = bool_decide (clock_pos w - clock_pos w0 < 5)%nat).
  { apply bool_decide_ext. lia. }
  rewrite Hdec in Hrl |- *. split; [|done].
  split; [by rewrite Hclock'|]. split; [lia|]. rewrite Hrl, Hpos'.
  cbn [snd timestamps].
  destruct (bool_decide (clock_pos w - clock_pos w0 < 5)%nat) eqn:Hk.
  - apply bool_decide_eq_true in Hk. split.
    + intros ts [Hin| ->%list_elem_of_singleton]%elem_of_app.
      * destruct (Hts ts Hin) as (i & Hi & ->). exists i. split; [lia|done].
      * exists (clock_pos w). split; [lia|done].
    + rewrite length_app, Hlen. change (length [next_now w]) with 1%nat. lia.
  - apply bool_decide_eq_false in Hk. split.
    + intros ts Hin. destruct (Hts ts Hin) as (i & Hi & ->). exists i. split; [lia|done].
    + rewrite Hlen. lia.
Qed.

Lemma log_send_burst w0 n r emailId emailData :
  burst_run w0 r →
  clock_within 10000 n w0 →
  (clock_pos (world r) < clock_pos w0 + n)%nat →
  emailId ∉ sentEmails (svc r) →
  let r' := log_send emailId emailData r in
  burst_run w0 r' ∧
  clock_pos (world r') = S (clock_pos (world r)) ∧
  sentEmails (svc r') ⊆ {[emailId]} ∪ sentEmails (svc r) ∧
  ∃ v, console r' = console r ++ [LogValue v] ∧
       burst_value (clock_pos (world r) - clock_pos w0) v.
Proof.
  intros (Hfail & Hinv & Hdef & Hlim & Hint) Hwithin Hn Hnin r'.
  destruct (burst_step w0 n (svc r) (world r) emailId emailData
              Hinv Hwithin Hn Hlim Hint Hnin) as [Hinv' Hdec].
  destruct (send_reads_clock (svc r) emailId emailData (world r) Hnin) as [_ Hpos'].
  destruct (send_sentEmails (svc r) emailId emailData (world r)) as [_ Hsub].
  destruct (send_limiter_config (svc r) emailId emailData (world r)) as [Hlim' Hint'].
  destruct (send_fields _ _ _ _ _ _ _
              (triple_eta (send (svc r) emailId emailData (world r))))
    as (Hps & _ & _).
  assert (∃ v, (send (svc r) emailId emailData (world r)).1.1 = Returns v ∧
               burst_value (clock_pos (world r) - clock_pos w0) v) as (v & Hv & Hval).
  { unfold burst_value. rewrite <- Hdec.
    destruct (isAllowed_at _ _).1 eqn:Hallowed.
    - destruct (send_admitted_result (svc r) emailId emailData (world r)
                  Hnin Hallowed Hdef) as (status & -> & Hkind).
      eexists. split; [done|]. by exists status.
    - rewrite send_refused by done. by eexists. }
  subst r'. unfold log_send. rewrite Hfail.
  destruct (send (svc r) emailId emailData (world r)) as [[c s'] w'].
  simpl in *. subst c. simpl.
  split; [|split; [done|split; [done|by exists v]]].
  unfold burst_run. simpl.
  split; [done|]. split; [done|]. split; [by rewrite Hps|].
  split; congruence.
Qed.

Lemma log_sends_burst w0 n calls :
  ∀ r,
    burst_run w0 r →
    clock_within 10000 n w0 →
    (clock_pos (world r) + length calls ≤ clock_pos w0 + n)%nat →
    NoDup calls.*1 →
    (∀ emailId, emailId ∈ calls.*1 → emailId ∉ sentEmails (svc r)) →
    let r' := log_sends calls r in
    burst_run w0 r' ∧
    clock_pos (world r') = (clock_pos (world r) + length calls)%nat ∧
    ∃ vs, console r' = console r ++ (LogValue <$> vs) ∧
          length vs = length calls ∧
          ∀ i v, vs !! i = Some v →
                 burst_value (clock_pos (world r) - clock_pos w0 + i) v.
Proof.
  induction calls as [|[emailId emailData] calls IH];
    intros r Hrun Hwithin Hn Hnodup Hfresh r'.
  - subst r'. simpl. split; [done|]. split; [lia|].
    exists []. simpl. by rewrite app_nil_r.
  - simpl in Hn, Hnodup. apply NoDup_cons in Hnodup as [Hhead Hnodup].
    destruct (log_send_burst w0 n r emailId emailData Hrun Hwithin ltac:(lia)
                (Hfresh emailId ltac:(by left)))
      as (Hrun1 & Hpos1 & Hsub1 & v & Hcon1 & Hv).
    destruct (IH (log_send emailId emailData r) Hrun1 Hwithin ltac:(lia) Hnodup)
      as (Hrun' & Hpos' & vs & Hcon' & Hlen' & Hvs).
    { intros other Hother Hin. apply Hsub1, elem_of_union in Hin as [Hin|Hin].
      - apply elem_of_singleton in Hin as ->. done.
      - apply (Hfresh other); [by right|done]. }
    subst r'. simpl. split; [done|]. split; [simpl; lia|].
    exists (v :: vs). rewrite Hcon', Hcon1, <- app_assoc. split; [done|].
    split; [simpl; lia|].
    destruct Hrun as (_ & (_ & Hle & _) & _).
    intros [|i] v' Hlook; simpl in Hlook.
    + injection Hlook as <-. by rewrite Nat.add_0_r.
    + apply Hvs in Hlook. rewrite Hpos1 in Hlook.
      by replace (clock_pos (world r) - clock_pos w0 + S i)%nat
        with (S (clock_pos (world r)) - clock_pos w0 + i)%nat by lia.
Qed.

(** X15. A burst through the service.  Take a service fresh from its
    constructor with both providers supplied, and awaited calls of [send] on
    pairwise distinct identities, while any two readings of the clock are
    less than 10000 apart.  No call throws; each of the first five is
    dispatched and returns [Sent] or [Failed]; every later one returns
    [RateLimited] with [attempts = 0]. *)
Theorem service_burst prov1 prov2 retries s0 calls w :
  new_EmailService (Some prov1) (Some prov2) retries = Returns s0 →
  NoDup calls.*1 →
  clock_within 10000 (length calls) w →
  let r := log_sends calls (mkRun s0 w [] None) in
  failure r = None ∧
  ∃ vs, console r = LogValue <$> vs ∧
        length vs = length calls ∧
        ∀ i v, vs !! i = Some v → burst_value i v.
Proof.
  intros Hnew Hnodup Hwithin r. injection Hnew as <-.
  set (r0 := mkRun _ w [] None) in r.
  assert (Hrun : burst_run w r0).
  { split; [done|]. split; [|split; [|done]].
    - split; [done|]. split; [done|]. split.
      + intros ts Hts. by apply elem_of_nil in Hts.
      + simpl. by rewrite Nat.sub_diag.
    - simpl. intros Hin. apply elem_of_cons in Hin as [Hin|Hin]; [done|].
      apply list_elem_of_singleton in Hin. done. }
  destruct (log_sends_burst w (length calls) calls r0 Hrun Hwithin)
    as ((Hfail & _) & _ & vs & Hcon & Hlen & Hvs); [done|done| |].
  - intros emailId _. apply not_elem_of_empty.
  - split; [done|]. exists vs. split; [done|]. split; [done|].
    intros i v Hlook. apply Hvs in Hlook. simpl in Hlook.
    by rewrite Nat.sub_diag in Hlook.
Qed.

Lemma service_burst_witness :
  failure (log_sends rate_limit_calls (mkRun emailService (scripted 0 []) [] None)) = None ∧
  ∃ vs, console (log_sends rate_limit_calls (mkRun emailService (scripted 0 []) [] None))
        = LogValue <$> vs ∧
        length vs = length rate_limit_calls ∧
        ∀ i v, vs !! i = Some v → burst_value i v.
Proof.
  apply (service_burst provider1 provider2 None emailService rate_limit_calls
           (scripted 0 []) eq_refl).
  - apply (bool_decide_unpack _). vm_compute. exact I.
  - apply scripted_within. vm_compute. discriminate.
Defined.

Lemma no_retries_no_delivery_witness :
  send no_retry_service "email-1" hello (scripted 0 [])
  = (Returns (Some (Failed (0 * 2))),
     set_status
       (set_rateLimiter no_retry_service
          (isAllowed_at (next_now (scripted 0 [])) (rateLimiter no_retry_service)).2)
       "email-1" (Failed (0 * 2)),
     after_check (scripted 0 [])).
Proof.
  apply (no_retries_no_delivery no_retry_service [provider1; provider2] "email-1"
           hello (scripted 0 [])).
  - simpl. lia.
  - reflexivity.
  - apply not_elem_of_empty.
  - vm_compute. reflexivity.
Defined.

(** ** The driver *)

Lemma called_inv ids s :
  called emailService ids s →
  service_inv (Some provider1) (Some provider2) 3 s.
Proof.
  intros Hcalled.
  apply (reachable_inv _ _ _ emailService);
    [exact (new_EmailService_inv _ _ _ _ emailService_new)|].
  apply reachable_called. by exists ids.
Qed.

Lemma called_providers ids s : called emailService ids s → None ∉ providers s.
Proof.
  intros Hcalled. rewrite (inv_providers _ _ _ _ (called_inv _ _ Hcalled)).
  intros Hin. apply elem_of_cons in Hin as [Hin|Hin]; [done|].
  by apply list_elem_of_singleton in Hin.
Qed.

(** One logged call of the driver. *)
Lemma log_send_ok ids r emailId emailData :
  run_ok ids r →
  let r' := log_send emailId emailData r in
  run_ok (emailId :: ids) r' ∧
  console r' = console r ++ [LogValue (Some (getStatus (svc r') emailId))] ∧
  getStatus (svc r') emailId ≠ Unknown ∧
  (svc r', world r') = ((send (svc r) emailId emailData (world r)).1.2,
                        (send (svc r) emailId emailData (world r)).2).
Proof.
  intros [Hfail Hcalled] r'. subst r'. unfold log_send. rewrite Hfail.
  destruct (send (svc r) emailId emailData (world r)) as [[[v|e] s'] w'] eqn:Hsend.
  - assert (Hreach : reachable emailService (svc r))
      by (apply reachable_called; by exists ids).
    destruct (send_returns_record _ _ _ _ _ _ _ _ _ _ _ emailService_new Hreach Hsend)
      as (status & -> & Hst & Hknown).
    unfold getStatus. simpl. rewrite Hst. simpl.
    repeat split; try done. by econstructor.
  - pose proof (send_throws_missing _ _ _ _ _ _ _ Hsend) as Hmissing.
    by destruct (called_providers _ _ Hcalled).
Qed.

Lemma log_sends_ok calls :
  ∀ ids r,
    run_ok ids r →
    let r' := log_sends calls r in
    run_ok (reverse calls.*1 ++ ids) r' ∧
    (∃ vs, console r' = console r ++ (LogValue <$> vs) ∧ length vs = length calls) ∧
    ∀ other, other ∉ calls.*1 →
             statusMap (svc r') !! other = statusMap (svc r) !! other.
Proof.
  induction calls as [|[emailId emailData] calls IH]; intros ids r Hok r'.
  - subst r'. simpl. split; [done|]. split; [|done].
    exists []. by rewrite app_nil_r.
  - destruct (log_send_ok ids r emailId emailData Hok) as (Hok1 & Hcon1 & _ & Hst1).
    destruct (IH _ _ Hok1) as (Hok' & (vs & Hcon' & Hlen') & Hframe').
    subst r'. simpl. split; [|split].
    + rewrite reverse_cons, <- app_assoc. exact Hok'.
    + eexists (_ :: vs). rewrite Hcon', Hcon1, <- app_assoc.
      split; [done|]. simpl. by rewrite Hlen'.
    + intros other [Hne Hother]%not_elem_of_cons.
      rewrite (Hframe' other Hother).
      injection Hst1 as -> _.
      exact (send_statusMap_other _ _ _ _ _ _ _ other (triple_eta _) Hne).
Qed.

Lemma log_text_ok ids text r :
  run_ok ids r →
  run_ok ids (log_text text r) ∧
  log_text text r = mkRun (svc r) (world r) (console r ++ [LogText text]) None.
Proof. intros [Hfail Hcalled]. unfold log_text. rewrite Hfail. by split. Qed.

Lemma log_status_ok ids emailId r :
  run_ok ids r →
  log_status emailId r
  = mkRun (svc r) (world r)
      (console r ++ [LogValue (Some (getStatus (svc r) emailId))]) None.
Proof. intros [Hfail Hcalled]. unfold log_status. by rewrite Hfail. Qed.

Lemma getStatus_sent s emailId p a :
  getStatus s emailId = Sent p a ↔ statusMap s !! emailId = Some (Sent p a).
Proof.
  unfold getStatus. destruct (statusMap s !! emailId) as [status|]; simpl.
  - split; congruence.
  - split; discriminate.
Qed.

(** The driver up to the end of test 3. *)
Lemma after_test_3_report w :
  run_ok ["email-1"; "email-2"; "email-1"] (after_test_3 w) ∧
  ∃ v1 v2,
    console (after_test_3 w)
    = [LogText "Test 1: Successful email send"; LogValue (Some v1);
       LogText "Test 2: Retry and fallback"; LogValue (Some v2);
       LogText "Test 3: Idempotency";
       LogValue (Some (getStatus (svc (after_test_3 w)) "email-1"))] ∧
    v1 ≠ Unknown ∧ v2 ≠ Unknown ∧
    getStatus (svc (after_test_3 w)) "email-1" ≠ Unknown ∧
    ((∃ p a, v1 = Sent p a) → getStatus (svc (after_test_3 w)) "email-1" = v1).
Proof.
  unfold after_test_3, after_test_2, after_test_1.
  set (r0 := mkRun emailService w [] None).
  assert (Hok0 : run_ok [] r0) by (split; [done|constructor]).
  set (t1 := log_text "Test 1: Successful email send" r0).
  destruct (log_text_ok _ "Test 1: Successful email send" _ Hok0) as [Hok0' Ht1].
  fold t1 in Hok0', Ht1.
  set (r1 := log_send "email-1" hello t1).
  destruct (log_send_ok _ t1 "email-1" hello Hok0') as (Hok1 & Hcon1 & Hv1 & Hst1).
  fold r1 in Hok1, Hcon1, Hv1, Hst1.
  set (t2 := log_text "Test 2: Retry and fallback" r1).
  destruct (log_text_ok _ "Test 2: Retry and fallback" _ Hok1) as [Hok1' Ht2].
  fold t2 in Hok1', Ht2.
  set (r2 := log_send "email-2" retry_test t2).
  destruct (log_send_ok _ t2 "email-2" retry_test Hok1') as (Hok2 & Hcon2 & Hv2 & Hst2).
  fold r2 in Hok2, Hcon2, Hv2, Hst2.
  set (t3 := log_text "Test 3: Idempotency" r2).
  destruct (log_text_ok _ "Test 3: Idempotency" _ Hok2) as [Hok2' Ht3].
  fold t3 in Hok2', Ht3.
  set (r3 := log_send "email-1" duplicate t3).
  destruct (log_send_ok _ t3 "email-1" duplicate Hok2') as (Hok3 & Hcon3 & Hv3 & Hst3).
  fold r3 in Hok3, Hcon3, Hv3, Hst3.
  split; [done|].
  exists (getStatus (svc r1) "email-1"), (getStatus (svc r2) "email-2").
  split; [|split; [done|split; [done|split; [done|]]]].
  - rewrite Hcon3, Ht3. simpl. rewrite Hcon2, Ht2. simpl. rewrite Hcon1, Ht1. done.
  - intros (p & a & Hsent). rewrite Hsent.
    apply getStatus_sent in Hsent. apply getStatus_sent.
    assert (Hsent2 : statusMap (svc r2) !! "email-1" = Some (Sent p a)).
    { injection Hst2 as -> _. rewrite Ht2. simpl.
      by rewrite (send_statusMap_other _ _ _ _ _ _ _ "email-1" (triple_eta _)). }
    injection Hst3 as -> _. rewrite Ht3. simpl.
    destruct Hok2 as [_ Hcalled2].
    by rewrite (send_short_circuit _ _ _ _ _ _ _ duplicate (world r2)
                  (called_inv _ _ Hcalled2) Hsent2).
Qed.

(** X16. What the driver of the source file prints, whatever the random
    draws and the clock.  It never stops on an exception and logs sixteen
    values: the five titles, the results of the three sends of tests 1 to 3
    and of the six sends of test 4, and two statuses.  Every logged result
    of tests 1 to 3 is a status other than [Unknown]; when test 1 was
    [Sent], test 3 logs the same status; the status logged for [email-1] at
    the end is the one test 3 logged; and the status of [email-100] is
    [Unknown]. *)
Theorem driver_report w :
  failure (driver w) = None ∧
  ∃ v1 v2 v3 vs,
    console (driver w)
    = [LogText "Test 1: Successful email send"; LogValue (Some v1);
       LogText "Test 2: Retry and fallback"; LogValue (Some v2);
       LogText "Test 3: Idempotency"; LogValue (Some v3);
       LogText "Test 4: Rate limiting"] ++ (LogValue <$> vs) ++
      [LogText "Test 5: Status tracking"; LogValue (Some v3);
       LogValue (Some Unknown)] ∧
    length vs = 6%nat ∧
    v1 ≠ Unknown ∧ v2 ≠ Unknown ∧ v3 ≠ Unknown ∧
    ((∃ p a, v1 = Sent p a) → v3 = v1).
Proof.
  destruct (after_test_3_report w)
    as (Hok3 & v1 & v2 & Hcon3 & Hv1 & Hv2 & Hv3 & Hsame).
  unfold driver, after_test_4.
  set (r3 := after_test_3 w) in *.
  set (t4 := log_text "Test 4: Rate limiting" r3).
  destruct (log_text_ok _ "Test 4: Rate limiting" _ Hok3) as [Hok3' Ht4].
  fold t4 in Hok3', Ht4.
  set (r4 := log_sends rate_limit_calls t4).
  destruct (log_sends_ok rate_limit_calls _ t4 Hok3')
    as (Hok4 & (vs & Hcon4 & Hlen4) & Hframe4).
  fold r4 in Hok4, Hcon4, Hframe4.
  set (t5 := log_text "Test 5: Status tracking" r4).
  destruct (log_text_ok _ "Test 5: Status tracking" _ Hok4) as [Hok4' Ht5].
  fold t5 in Hok4', Ht5.
  rewrite (log_status_ok _ "email-1" t5 Hok4').
  rewrite (log_status_ok
             (reverse rate_limit_calls.*1 ++ ["email-1"; "email-2"; "email-1"])
             "email-100").
  2:{ split; [reflexivity|]. cbn [svc]. by destruct Hok4'. }
  split; [done|].
  exists v1, v2, (getStatus (svc r3) "email-1"), vs.
  split; [|done].
  assert (Hsame1 : getStatus (svc r4) "email-1" = getStatus (svc r3) "email-1").
  { unfold getStatus. rewrite Hframe4, Ht4; [done|].
    apply (bool_decide_unpack _). vm_compute. exact I. }
  assert (Hunknown : getStatus (svc r4) "email-100" = Unknown).
  { destruct Hok4 as [_ Hcalled4].
    unfold getStatus.
    rewrite (unseen_no_record _ _ _ _ _ _ "email-100" emailService_new Hcalled4);
      [done|].
    apply (bool_decide_unpack _). vm_compute. exact I. }
  cbn [console svc world]. rewrite Ht5. cbn [console svc world].
  rewrite Hcon4, Ht4. cbn [console svc world]. rewrite Hcon3.
  rewrite Hsame1, Hunknown, <- !app_assoc. reflexivity.
Qed.

Lemma after_test_4_ok w :
  run_ok (reverse rate_limit_calls.*1 ++ ["email-1"; "email-2"; "email-1"])
    (after_test_4 w).
Proof.
  destruct (after_test_3_report w) as (Hok3 & _).
  destruct (log_text_ok _ "Test 4: Rate limiting" _ Hok3) as [Hok3' _].
  by destruct (log_sends_ok rate_limit_calls _ _ Hok3') as (Hok4 & _).
Qed.

(** The last three lines of the driver, after any run that has not failed. *)
Lemma status_report ids r :
  run_ok ids r →
  log_status "email-100"
    (log_status "email-1" (log_text "Test 5: Status tracking" r))
  = mkRun (svc r) (world r)
      (console r ++
       [LogText "Test 5: Status tracking";
        LogValue (Some (getStatus (svc r) "email-1"));
        LogValue (Some (getStatus (svc r) "email-100"))]) None.
Proof.
  intros [Hfail Hcalled]. unfold log_status, log_text. rewrite Hfail.
  cbn [failure console svc world]. by rewrite <- !app_assoc.
Qed.

Lemma driver_console w :
  console (driver w)
  = console (after_test_4 w) ++
    [LogText "Test 5: Status tracking";
     LogValue (Some (getStatus (svc (after_test_4 w)) "email-1"));
     LogValue (Some (getStatus (svc (after_test_4 w)) "email-100"))].
Proof.
  unfold driver. by rewrite (status_report _ _ (after_test_4_ok w)).
Qed.

Lemma burst_run_same w0 r r' :
  svc r' = svc r → world r' = world r → failure r' = None →
  burst_run w0 r → burst_run w0 r'.
Proof.
  unfold burst_run. intros -> -> -> (_ & Hinv & Hrest). by split.
Qed.

Lemma log_text_same text r :
  failure r = None →
  svc (log_text text r) = svc r ∧ world (log_text text r) = world r ∧
  failure (log_text text r) = None ∧
  console (log_text text r) = console r ++ [LogText text].
Proof. intros Hfail. unfold log_text. by rewrite Hfail. Qed.

(** A logged call on an identity already sent changes neither the service
    nor the world. *)
Lemma log_send_short emailId emailData r :
  failure r = None →
  emailId ∈ sentEmails (svc r) →
  svc (log_send emailId emailData r) = svc r ∧
  world (log_send emailId emailData r) = world r ∧
  failure (log_send emailId emailData r) = None.
Proof.
  intros Hfail Hin. unfold log_send. rewrite Hfail, send_step.
  by rewrite decide_True.
Qed.

Lemma rate_limit_calls_fresh emailId :
  emailId ∈ rate_limit_calls.*1 → emailId ≠ "email-1" ∧ emailId ≠ "email-2".
Proof.
  revert emailId. apply Forall_forall.
  apply (bool_decide_unpack _). vm_compute. exact I.
Qed.

(** The driver up to the end of test 3, in a burst. *)
Lemma after_test_3_burst w :
  clock_within 10000 9 w →
  burst_run w (after_test_3 w) ∧
  (clock_pos w + 2 ≤ clock_pos (world (after_test_3 w)) ≤ clock_pos w + 3)%nat ∧
  sentEmails (svc (after_test_3 w)) ⊆ {["email-1"; "email-2"]}.
Proof.
  intros Hwithin. unfold after_test_3, after_test_2, after_test_1.
  set (r0 := mkRun emailService w [] None).
  assert (Hrun0 : burst_run w r0).
  { split; [done|]. split; [|split; [|done]].
    - split; [done|]. split; [done|]. split.
      + intros ts Hts. by apply elem_of_nil in Hts.
      + simpl. by rewrite Nat.sub_diag.
    - apply (called_providers []). constructor. }
  set (t1 := log_text "Test 1: Successful email send" r0).
  destruct (log_text_same "Test 1: Successful email send" r0 eq_refl)
    as (Hs1 & Hw1 & Hf1 & _). fold t1 in Hs1, Hw1, Hf1.
  pose proof (burst_run_same w r0 t1 Hs1 Hw1 Hf1 Hrun0) as Hrun1.
  destruct (log_send_burst w 9 t1 "email-1" hello Hrun1 Hwithin)
    as (Hrun1' & Hpos1 & Hsub1 & _).
  { rewrite Hw1. simpl. lia. }
  { rewrite Hs1. apply not_elem_of_empty. }
  set (r1 := log_send "email-1" hello t1) in *.
  rewrite Hw1, Hs1 in *. simpl in Hpos1, Hsub1.
  set (t2 := log_text "Test 2: Retry and fallback" r1).
  destruct (log_text_same "Test 2: Retry and fallback" r1 (proj1 Hrun1'))
    as (Hs2 & Hw2 & Hf2 & _). fold t2 in Hs2, Hw2, Hf2.
  pose proof (burst_run_same w r1 t2 Hs2 Hw2 Hf2 Hrun1') as Hrun2.
  destruct (log_send_burst w 9 t2 "email-2" retry_test Hrun2 Hwithin)
    as (Hrun2' & Hpos2 & Hsub2 & _).
  { rewrite Hw2. lia. }
  { rewrite Hs2. intros Hin. apply Hsub1, elem_of_union in Hin as [Hin|Hin].
    - by apply elem_of_singleton in Hin.
    - by apply not_elem_of_empty in Hin. }
  set (r2 := log_send "email-2" retry_test t2) in *.
  rewrite Hw2, Hs2 in *.
  assert (Hsent2 : sentEmails (svc r2) ⊆ {["email-1"; "email-2"]}).
  { intros x Hx. apply Hsub2, elem_of_union in Hx as [Hx|Hx].
    - apply elem_of_union. right. done.
    - apply Hsub1, elem_of_union in Hx as [Hx|Hx].
      + apply elem_of_union. by left.
      + by apply not_elem_of_empty in Hx. }
  set (t3 := log_text "Test 3: Idempotency" r2).
  destruct (log_text_same "Test 3: Idempotency" r2 (proj1 Hrun2'))
    as (Hs3 & Hw3 & Hf3 & _). fold t3 in Hs3, Hw3, Hf3.
  pose proof (burst_run_same w r2 t3 Hs3 Hw3 Hf3 Hrun2') as Hrun3.
  destruct (decide ("email-1" ∈ sentEmails (svc t3))) as [Hin|Hnin].
  - destruct (log_send_short "email-1" duplicate t3 Hf3 Hin) as (Hs & Hw & Hf).
    split; [by apply (burst_run_same w t3)|].
    rewrite Hw, Hs, Hw3, Hs3. split; [lia|done].
  - destruct (log_send_burst w 9 t3 "email-1" duplicate Hrun3 Hwithin)
      as (Hrun3' & Hpos3 & Hsub3 & _); [rewrite Hw3; lia|done|].
    rewrite Hw3, Hs3 in *. split; [done|]. split; [lia|].
    intros x Hx. apply Hsub3, elem_of_union in Hx as [Hx|Hx].
    + apply elem_of_union. by left.
    + by apply Hsent2.
Qed.

(** Test 4 after any run that left at least two readings of the burst
    behind it and only [email-1] and [email-2] sent. *)
Lemma test_4_burst w0 r tail i :
  clock_within 10000 9 w0 →
  burst_run w0 r →
  (clock_pos w0 + 2 ≤ clock_pos (world r) ≤ clock_pos w0 + 3)%nat →
  sentEmails (svc r) ⊆ {["email-1"; "email-2"]} →
  length (console r) = 6%nat →
  (10 ≤ i ≤ 12)%nat →
  (console (log_sends rate_limit_calls (log_text "Test 4: Rate limiting" r)) ++ tail)
    !! i = Some (LogValue (Some (RateLimited 0))).
Proof.
  intros Hwithin Hrun Hpos Hsent Hlen6 Hi.
  destruct (log_text_same "Test 4: Rate limiting" r (proj1 Hrun))
    as (Hs4 & Hw4 & Hf4 & Hcon4).
  pose proof (burst_run_same w0 r _ Hs4 Hw4 Hf4 Hrun) as Hrun4.
  destruct (log_sends_burst w0 9 rate_limit_calls _ Hrun4 Hwithin)
    as (_ & _ & vs & Hcon & Hlen & Hvs).
  { rewrite Hw4. change (length rate_limit_calls) with 6%nat. lia. }
  { apply (bool_decide_unpack _). vm_compute. exact I. }
  { rewrite Hs4. intros emailId [Hne1 Hne2]%rate_limit_calls_fresh Hin.
    apply Hsent, elem_of_union in Hin as [Hin|Hin];
      by apply elem_of_singleton in Hin. }
  change (length rate_limit_calls) with 6%nat in Hlen.
  assert (Hlen7 : length (console r ++ [LogText "Test 4: Rate limiting"]) = 7%nat)
    by (rewrite length_app, Hlen6; reflexivity).
  rewrite Hcon, Hcon4.
  rewrite lookup_app_l by (rewrite length_app, Hlen7, length_fmap; lia).
  rewrite lookup_app_r by lia. rewrite Hlen7, list_lookup_fmap.
  destruct (vs !! (i - 7)%nat) as [v|] eqn:Hlook;
    [|apply lookup_ge_None in Hlook; lia].
  apply Hvs in Hlook. unfold burst_value in Hlook.
  rewrite bool_decide_false in Hlook by (rewrite Hw4; lia).
  by rewrite Hlook.
Qed.

(** X17. In the driver, when the nine possible readings of the clock are
    less than 10000 apart, the rate limiter is full before the send of
    [email-6]: the results logged at positions 10, 11 and 12, those of
    [email-6], [email-7] and [email-8], are [RateLimited] with
    [attempts = 0], whatever the random draws. *)
Theorem driver_rate_limited w i :
  clock_within 10000 9 w →
  (10 ≤ i ≤ 12)%nat →
  console (driver w) !! i = Some (LogValue (Some (RateLimited 0))).
Proof.
  intros Hwithin Hi.
  destruct (after_test_3_burst w Hwithin) as (Hrun3 & Hpos3 & Hsent3).
  destruct (after_test_3_report w) as (_ & v1 & v2 & Hcon3 & _).
  rewrite driver_console.
  apply (test_4_burst w (after_test_3 w)); try done.
  by rewrite Hcon3.
Qed.

Lemma driver_rate_limited_witness :
  console (driver (scripted 0 [])) !! 10%nat = Some (LogValue (Some (RateLimited 0))).
Proof.
  apply (driver_rate_limited (scripted 0 []) 10).
  - apply scripted_within. lia.
  - lia.
Defined.

(** ** The two stores of the service *)

(** X18. The set of sent identities and the status map of a constructed
    service.  Whatever calls of [send] are made on the service and however
    they overlap (each call cut at its [await]s, the pieces run in any
    order), an identity whose record is [Sent] is in the set of sent
    identities, and the set never loses an identity.  When the calls are
    made one after the other, each awaited before the next one starts, the
    two stores agree: an identity is in the set exactly when its record is
    [Sent]; so, right after such a [send] that returns a status, the identity
    is marked as sent exactly when that status is [Sent].  The states reached
    by calls made one after the other are among those reached by calls that
    overlap. *)
Theorem sent_set_matches_records provider1 provider2 retries s0 :
  new_EmailService provider1 provider2 retries = Returns s0 →
  (∀ s, interleaved s0 s →
     (∀ emailId p a, getStatus s emailId = Sent p a → emailId ∈ sentEmails s) ∧
     (∀ s', interleaved s s' → sentEmails s ⊆ sentEmails s')) ∧
  (∀ s, reachable s0 s →
     interleaved s0 s ∧
     (∀ emailId,
        emailId ∈ sentEmails s ↔ ∃ p a, getStatus s emailId = Sent p a) ∧
     (∀ emailId emailData w status s' w',
        send s emailId emailData w = (Returns (Some status), s', w') →
        emailId ∈ sentEmails s' ↔ ∃ p a, status = Sent p a)).
Proof.
  intros Hnew. split.
  - intros s Hinter. split.
    + intros emailId p a Hst. apply getStatus_sent in Hst.
      apply (proj2 (interleaved_stores s0 s Hinter)) in Hst; [done|].
      injection Hnew as <-. intros id p' a'. cbn [statusMap].
      by rewrite lookup_empty.
    + intros s' Hinter'. apply (interleaved_stores s s' Hinter').
  - assert (Hall : ∀ s1, reachable s0 s1 → ∀ emailId,
              emailId ∈ sentEmails s1 ↔ ∃ p a, getStatus s1 emailId = Sent p a).
    { intros s1 Hreach1 emailId.
      pose proof (reachable_inv _ _ _ _ _ (new_EmailService_inv _ _ _ _ Hnew) Hreach1)
        as Hinv.
      rewrite (inv_sent _ _ _ _ Hinv).
      split; intros (p & a & H); exists p, a; by apply getStatus_sent. }
    intros s Hreach. split; [by apply reachable_interleaved|].
    split; [by apply Hall|].
    intros emailId emailData w status s' w' Hsend.
    destruct (send_returns_record _ _ _ _ _ _ _ _ _ _ _ Hnew Hreach Hsend)
      as (status' & [= <-] & Hst & _).
    rewrite (Hall s' ltac:(by eapply reach_send) emailId).
    unfold getStatus. by rewrite Hst.
Qed.

Lemma sent_set_matches_records_witness :
  (∀ s, interleaved emailService s →
     (∀ emailId p a, getStatus s emailId = Sent p a → emailId ∈ sentEmails s) ∧
     (∀ s', interleaved s s' → sentEmails s ⊆ sentEmails s')) ∧
  (∀ s, reachable emailService s →
     interleaved emailService s ∧
     (∀ emailId,
        emailId ∈ sentEmails s ↔ ∃ p a, getStatus s emailId = Sent p a) ∧
     (∀ emailId emailData w status s' w',
        send s emailId emailData w = (Returns (Some status), s', w') →
        emailId ∈ sentEmails s' ↔ ∃ p a, status = Sent p a)).
Proof.
  exact (sent_set_matches_records (Some provider1) (Some provider2) None emailService
           eq_refl).
Defined.

Lemma isAllowed_at_length now this :
  0 ≤ limit this →
  Z.of_nat (length (timestamps this)) ≤ limit this →
  Z.of_nat (length (timestamps (isAllowed_at now this).2)) ≤ limit this.
Proof.
  intros Hlim Hlen. unfold isAllowed_at.
  pose proof (length_filter (λ ts, now - ts < intervalMs this) (timestamps this)).
  case_bool_decide; simpl; [rewrite length_app; simpl|]; lia.
Qed.

(** X19. Whatever the clock does, also when it goes back, the rate limiter
    of a constructed service never holds more than five timestamps. *)
Theorem service_limiter_bounded provider1 provider2 retries s0 s :
  new_EmailService provider1 provider2 retries = Returns s0 →
  reachable s0 s →
  (length (timestamps (rateLimiter s)) ≤ 5)%nat.
Proof.
  intros Hnew Hreach.
  assert (Hinv0 := new_EmailService_inv _ _ _ _ Hnew).
  induction Hreach as [|s emailId emailData w c s' w' Hreach IH Hsend].
  - injection Hnew as <-. simpl. lia.
  - pose proof (reachable_inv _ _ _ _ _ Hinv0 Hreach) as Hinv.
    pose proof (send_rateLimiter s emailId emailData w) as Hrl.
    rewrite Hsend in Hrl. simpl in Hrl. destruct Hrl as [-> | ->]; [done|].
    pose proof (isAllowed_at_length (next_now w) (rateLimiter s)) as Hlen.
    rewrite (inv_limit _ _ _ _ Hinv) in Hlen. lia.
Qed.

Lemma service_limiter_bounded_witness :
  (length (timestamps (rateLimiter after_email_2_failed)) ≤ 5)%nat.
Proof.
  exact (service_limiter_bounded (Some provider1) (Some provider2) None emailService
           after_email_2_failed eq_refl (reach_send_result _ _ _ _ _ (reach_refl _))).
Defined.
